(** * The person index of the anthology (bin/anthology/people.py)

    A shallow embedding of the classes [PersonName] and [PersonIndex] and the
    properties of name serialization, canonicalization, slug assignment and
    co-author bookkeeping that hold of them.

    Python strings are modelled by [string]; a character is a code point
    below 256.  A [dict] or [set] whose iteration order no modelled operation
    observes is a [gmap] or [gset]; the per-person role table, which
    [get_papers] iterates, is an association list in insertion order. *)

From Stdlib Require Import ZArith List Ascii String.
From stdpp Require Import gmap strings list fin_maps pretty.

Local Open Scope string_scope.
Local Open Scope list_scope.
#[local] Set Warnings "-clear-no-such-hyp".

(** ** Strings: the built-in methods the module calls *)

Module Str.

(** [str.isspace] of one character, on the code points below 256. *)
Definition isspace (c : ascii) : bool :=
  let n := nat_of_ascii c in
  ((9 <=? n)%nat && (n <=? 13)%nat) || ((28 <=? n)%nat && (n <=? 32)%nat)
  || (n =? 133)%nat || (n =? 160)%nat.

(** [s.lstrip()] *)
Fixpoint lstrip (s : string) : string :=
  match s with
  | String c s' => if isspace c then lstrip s' else s
  | EmptyString => EmptyString
  end.

(** [s.rstrip()] *)
Fixpoint rstrip (s : string) : string :=
  match s with
  | String c s' =>
      match rstrip s' with
      | EmptyString => if isspace c then EmptyString else String c EmptyString
      | r => String c r
      end
  | EmptyString => EmptyString
  end.

(** [s.strip()] *)
Definition strip (s : string) : string := lstrip (rstrip s).

(** [s.startswith(p)] *)
Fixpoint startswith (p s : string) : bool :=
  match p, s with
  | EmptyString, _ => true
  | String a p', String b s' => if decide (a = b) then startswith p' s' else false
  | String _ _, EmptyString => false
  end.

(** [s.split(sep)] for a non-empty [sep]: the occurrences of [sep] are
    found from left to right and do not overlap.  [skip] counts the
    characters of a separator just found that are still to be passed. *)
Fixpoint split_go (sep : string) (skip : nat) (s : string) : list string :=
  match s with
  | EmptyString => [EmptyString]
  | String c s' =>
      match skip with
      | S k => split_go sep k s'
      | O =>
          if startswith sep s
          then EmptyString :: split_go sep (String.length sep - 1) s'
          else match split_go sep 0 s' with
               | p :: ps => String c p :: ps
               | [] => [String c EmptyString]
               end
      end
  end.

Definition split (sep s : string) : list string := split_go sep 0 s.

(** [p in s] for strings *)
Fixpoint contains (p s : string) : bool :=
  startswith p s
  || match s with
     | String _ s' => contains p s'
     | EmptyString => false
     end.

(** [s.endswith(p)] *)
Fixpoint endswith (p s : string) : bool :=
  bool_decide (s = p)
  || match s with
     | String _ s' => endswith p s'
     | EmptyString => false
     end.

(** [template.format(a, b, ...)] for a template whose only replacement fields
    are the automatic [{}] and arguments that are strings.  Every call of
    the module passes as many arguments as the template has fields (with
    fewer Python raises IndexError; here the field is then left empty). *)
Fixpoint format (template : string) (args : list string) : string :=
  match template with
  | String "{" (String "}" rest) =>
      match args with
      | a :: args' => a +:+ format rest args'
      | [] => format rest []
      end
  | String c rest => String c (format rest args)
  | EmptyString => EmptyString
  end.

(** Truth value of a string in a condition: non-empty. *)
Definition truthy (s : string) : bool :=
  match s with EmptyString => false | String _ _ => true end.

End Str.

(** ** PersonName *)

Record PersonName := mkName { first : string; last : string; jr : string }.

Global Instance PersonName_eq_dec : EqDecision PersonName.
Proof. solve_decision. Defined.

Global Instance PersonName_countable : Countable PersonName.
Proof.
  refine (inj_countable' (λ n, (first n, last n, jr n))
                         (λ t, mkName t.1.1 t.1.2 t.2) _).
  by intros [].
Defined.

(** An element of a person record, as [from_element] reads it:
    [element.tag] and [element.text], which is [None] for an element without
    text. *)
Record Element := mkElement { tag : string; text : option string }.

Module PersonName.

(** [PersonName.__init__] *)
Definition __init__ (first last jr : string) : PersonName :=
  mkName (Str.strip first) (Str.strip last) (Str.strip jr).

(** [parts[i] if len(parts) > i else ""] *)
Definition part (parts : list string) (i : nat) : string :=
  if decide (i < length parts)%nat then default "" (parts !! i) else "".

(** [PersonName.from_repr] *)
Definition from_repr (repr_ : string) : PersonName :=
  let parts := Str.split " || " repr_ in
  let first := default "" (parts !! 0) in
  let last := part parts 1 in
  let jr := part parts 2 in
  __init__ first last jr.

(** [PersonName.__repr__] *)
Definition __repr__ (self : PersonName) : string :=
  if Str.truthy (jr self)
  then Str.format "{} || {} || {}" [first self; last self; jr self]
  else if Str.truthy (first self)
  then Str.format "{} || {}" [first self; last self]
  else last self.

(** [PersonName.full] *)
Definition full (self : PersonName) : string :=
  Str.strip (Str.format "{} {}{}" [first self; last self; jr self]).

(** A part that [from_repr] finds again in a serialized form: it holds no
    separator and, when a separator follows it, does not end in [" ||"],
    which with the blank of that separator would read as one. *)
Definition inner_part (s : string) : bool :=
  negb (Str.contains " || " s) && negb (Str.endswith " ||" s).

Definition final_part (s : string) : bool := negb (Str.contains " || " s).

(** No part holds the separator. *)
Definition no_separator (self : PersonName) : bool :=
  final_part (first self) && final_part (last self) && final_part (jr self).

Definition separable (self : PersonName) : bool :=
  inner_part (first self) && inner_part (last self) && final_part (jr self).

(** The parts a serialized form is put together from. *)
Definition parts (n : PersonName) : list string :=
  if Str.truthy (jr n) then [first n; last n; jr n]
  else if Str.truthy (first n) then [first n; last n]
  else [last n].

(** [PersonName.__eq__] *)
Definition __eq__ (self other : PersonName) : bool :=
  bool_decide (first self = first other)
  && bool_decide (last self = last other)
  && bool_decide (jr self = jr other).

(** [element.text or ""] *)
Definition text_or_empty (element : Element) : string :=
  match text element with
  | Some s => if Str.truthy s then s else ""
  | None => ""
  end.

(** The body of the loop of [from_element]: the three variables after one
    more element. *)
Definition read_element (acc : string * string * string) (element : Element)
  : string * string * string :=
  let '(first, last, jr) := acc in
  let tag := tag element in
  if decide (tag = "first") then (text_or_empty element, last, jr)
  else if decide (tag = "last") then (first, text_or_empty element, jr)
  else if decide (tag = "jr") then (first, last, text_or_empty element)
  else (first, last, jr).

(** [PersonName.from_element] *)
Definition from_element (person_element : list Element) : PersonName :=
  let '(first, last, jr) := fold_left read_element person_element ("", "", "") in
  __init__ first last jr.

(** [PersonName.__str__] *)
Definition __str__ (self : PersonName) : string := full self.


(** The text of the last element with the tag [t], empty when there is
    none or it has no text. *)
Definition field (t : string) (person_element : list Element) : string :=
  match list.last (filter (λ e, tag e = t) person_element) with
  | Some e => text_or_empty e
  | None => ""
  end.

End PersonName.

Abbreviation repr := PersonName.__repr__.

(** ** The collaborators of the index *)

(** A paper, as the index uses it: [paper.full_id] and [paper.get(role)],
    the names the paper lists under a role. *)
Record Paper := mkPaper { full_id : string; get : string → list PersonName }.

(** What a call does when it returns no value. *)
Inductive exn := KeyError (key : PersonName).

Inductive outcome (A : Type) :=
| Returns (a : A)
| Raises (e : exn).
Arguments Returns {A} a.
Arguments Raises {A} e.

(** ** Insertion-ordered tables: the [defaultdict(list)] of one person *)

Module Roles.

Abbreviation t := (list (string * list string)).

(** [role in d] and the stored list *)
Fixpoint lookup (role : string) (d : t) : option (list string) :=
  match d with
  | [] => None
  | (r, l) :: d' => if decide (r = role) then Some l else lookup role d'
  end.

(** What [d[role]] does to [d]: a missing key is created with [list()]. *)
Definition touch (role : string) (d : t) : t :=
  match lookup role d with
  | Some _ => d
  | None => (d ++ [(role, [])])%list
  end.

(** [d[role]] read after [touch] *)
Definition getitem (role : string) (d : t) : list string :=
  default [] (lookup role d).

(** [d[role].append(x)] *)
Definition append (role x : string) (d : t) : t :=
  (λ e : string * list string,
     if decide (e.1 = role) then (e.1, (e.2 ++ [x])%list) else e) <$> touch role d.

(** [[p for p_list in d.values() for p in p_list]] *)
Definition all_values (d : t) : list string := concat (snd <$> d).

End Roles.

(** ** PersonIndex *)

Record PersonIndex := mkIndex {
  names : gmap string PersonName;
  variants : gmap string string;
  _all_slugs : gset string;
  slugs : gmap PersonName string;
  coauthors : gmap PersonName (gmap PersonName Z);
  papers : gmap PersonName Roles.t;
}.

Module PersonIndex.

Definition set_papers (self : PersonIndex) (p : gmap PersonName Roles.t) : PersonIndex :=
  mkIndex (names self) (variants self) (_all_slugs self) (slugs self) (coauthors self) p.

Definition set_coauthors (self : PersonIndex)
    (c : gmap PersonName (gmap PersonName Z)) : PersonIndex :=
  mkIndex (names self) (variants self) (_all_slugs self) (slugs self) c (papers self).

Definition set_variants (self : PersonIndex) (v : gmap string string) : PersonIndex :=
  mkIndex (names self) v (_all_slugs self) (slugs self) (coauthors self) (papers self).

(** [PersonIndex.load_variant_list], after the file is read: [name_dict] is
    the loaded mapping in the order of the file. *)
Definition load_variant_list (self : PersonIndex)
    (name_dict : list (string * list string)) : PersonIndex :=
  fold_left (λ self '(canonical, vs),
      fold_left (λ self variant,
          set_variants self (<[variant := canonical]> (variants self))) vs self)
    name_dict self.

(** [PersonIndex.__init__]; [None] is [srcdir=None]. *)
Definition __init__ (name_dict : option (list (string * list string))) : PersonIndex :=
  let self := mkIndex ∅ ∅ {[ "" ]} ∅ ∅ ∅ in
  match name_dict with
  | Some d => load_variant_list self d
  | None => self
  end.

(** [PersonIndex.get_canonical_variant] *)
Definition get_canonical_variant (self : PersonIndex) (name : PersonName) : PersonName :=
  let name_repr := repr name in
  match variants self !! name_repr with
  | Some canonical => PersonName.from_repr canonical
  | None => name
  end.

(** [PersonIndex.get_slug] *)
Definition get_slug (self : PersonIndex) (name : PersonName) : outcome string :=
  let name := get_canonical_variant self name in
  match slugs self !! name with
  | Some slug => Returns slug
  | None => Raises (KeyError name)
  end.

(** [PersonIndex.get_papers]: the value returned and the index afterwards.
    [self.papers[name]] creates the entry of a missing [name], and
    [self.papers[name][role]] that of a missing [role]. *)
Definition get_papers (self : PersonIndex) (name : PersonName) (role : option string)
  : list string * PersonIndex :=
  let name := get_canonical_variant self name in
  let d := default [] (papers self !! name) in
  match role with
  | None => (Roles.all_values d, set_papers self (<[name := d]> (papers self)))
  | Some role =>
      let d := Roles.touch role d in
      (Roles.getitem role d, set_papers self (<[name := d]> (papers self)))
  end.

(** [PersonIndex.get_coauthors]: the counter whose items are returned and
    the index afterwards. *)
Definition get_coauthors (self : PersonIndex) (name : PersonName)
  : gmap PersonName Z * PersonIndex :=
  let name := get_canonical_variant self name in
  let c := default ∅ (coauthors self !! name) in
  (c, set_coauthors self (<[name := c]> (coauthors self))).

(** [venues[venue] += 1] on a [Counter] *)
Definition count {K} `{Countable K} (c : gmap K Z) (k : K) : gmap K Z :=
  <[k := (default 0 (c !! k) + 1)%Z]> c.

(** [PersonIndex.get_venues]; [vidx] is [vidx.get_associated_venues]. *)
Definition get_venues (self : PersonIndex) (vidx : string → list string)
    (name : PersonName) : gmap string Z * PersonIndex :=
  let '(ps, self) := get_papers self name None in
  (fold_left (λ venues paper, fold_left count (vidx paper) venues) ps ∅, self).

(** [PersonIndex.__len__] *)
Definition __len__ (self : PersonIndex) : nat := size (names self).

(** [PersonIndex.items] *)
Definition items (self : PersonIndex) : gmap string PersonName := names self.

(** One turn of the loop over [paper.get(role)] in [register]. *)
Definition add_coauthor (name : PersonName) (self : PersonIndex) (author : PersonName)
  : PersonIndex :=
  let author := get_canonical_variant self author in
  if PersonName.__eq__ author name then self
  else
    let c := default ∅ (coauthors self !! name) in
    set_coauthors self (<[name := count c author]> (coauthors self)).

Section Register.

(** [slugify.slugify], the external routine. *)
Variable slugify : string → string.

(** The slug tried in turn [j] of the loop of [register], [j >= 1]. *)
Definition candidate (name_repr : string) (j : N) : string :=
  slugify name_repr +:+ pretty j.

(** The [while slug in self._all_slugs] loop of [register], entered with
    the current [slug] and [i]; [fuel] bounds the number of turns. *)
Fixpoint slug_loop (fuel : nat) (used : gset string) (name_repr slug : string) (i : N)
  : option string :=
  if decide (slug ∈ used) then
    match fuel with
    | O => None
    | S fuel' =>
        let i := (i + 1)%N in
        slug_loop fuel' used name_repr
          (Str.format "{}{}" [slugify name_repr; pretty i]) i
    end
  else Some slug.

(** The branch [if name_repr not in self.names] of [register]. *)
Definition add_name (self : PersonIndex) (name : PersonName) (name_repr : string)
  : option PersonIndex :=
  slug ← slug_loop (S (size (_all_slugs self))) (_all_slugs self)
                   name_repr (slugify name_repr) 0;
  Some (mkIndex (<[name_repr := name]> (names self)) (variants self)
                ({[ slug ]} ∪ _all_slugs self) (<[name := slug]> (slugs self))
                (coauthors self) (papers self)).

(** [PersonIndex.register]: the value returned and the index afterwards;
    [None] only if the slug loop runs out of fuel. *)
Definition register (self : PersonIndex) (name : PersonName) (paper : Paper)
    (role : string) : option (string * PersonIndex) :=
  let name := get_canonical_variant self name in
  let name_repr := repr name in
  self ← (if decide (name_repr ∈ dom (names self)) then Some self
          else add_name self name name_repr);
  let d := default [] (papers self !! name) in
  let self := set_papers self
                (<[name := Roles.append role (full_id paper) d]> (papers self)) in
  let self := fold_left (add_coauthor name) (get paper role) self in
  Some (name_repr, self).

End Register.

End PersonIndex.

Import PersonIndex.

(** ** What the index holds, read without side effect *)

(** The value [self.coauthors[name][author]] reads, without the entries the
    reading creates. *)
Definition coauthor_count (self : PersonIndex) (name author : PersonName) : Z :=
  default 0%Z (default ∅ (coauthors self !! name) !! author).

(** The list [self.papers[name][role]] reads, without the entries the
    reading creates. *)
Definition paper_list (self : PersonIndex) (name : PersonName) (role : string)
  : list string :=
  Roles.getitem role (default [] (papers self !! name)).

(** A variant table none of whose canonical names, read and serialized
    again, is listed as a variant itself. *)
Definition chain_free (v : gmap string string) : Prop :=
  map_Forall (λ _ canonical, v !! repr (PersonName.from_repr canonical) = None) v.

(** ** The driver *)

(** A call of a method of the index by the driver. *)
Inductive call :=
| Register (name : PersonName) (paper : Paper) (role : string)
| GetSlug (name : PersonName)
| GetPapers (name : PersonName) (role : option string)
| GetCoauthors (name : PersonName)
| GetVenues (vidx : string → list string) (name : PersonName).

Section Driver.

Variable slugify : string → string.

(** The index after a call. *)
Definition step (self : PersonIndex) (c : call) : option PersonIndex :=
  match c with
  | Register name paper role => snd <$> register slugify self name paper role
  | GetSlug name => Some self
  | GetPapers name role => Some (get_papers self name role).2
  | GetCoauthors name => Some (get_coauthors self name).2
  | GetVenues vidx name => Some (get_venues self vidx name).2
  end.

(** The index after a sequence of calls. *)
Fixpoint run (self : PersonIndex) (cs : list call) : option PersonIndex :=
  match cs with
  | [] => Some self
  | c :: cs' => self' ← step self c; run self' cs'
  end.

End Driver.

(** The names a sequence of calls registers, in canonical form. *)
Fixpoint registered (self : PersonIndex) (cs : list call) : gset PersonName :=
  match cs with
  | [] => ∅
  | Register name _ _ :: cs' => {[ get_canonical_variant self name ]} ∪ registered self cs'
  | _ :: cs' => registered self cs'
  end.




(** The papers a sequence of calls registers for the canonical name [k]
    under [role], in the order of the calls. *)
Fixpoint papers_of (self : PersonIndex) (cs : list call) (k : PersonName)
    (role : string) : list string :=
  match cs with
  | [] => []
  | Register name paper r :: cs' =>
      (if decide (get_canonical_variant self name = k ∧ r = role)
       then [full_id paper] else [])
      ++ papers_of self cs' k role
  | _ :: cs' => papers_of self cs' k role
  end.

(** The papers a sequence of calls registers for the canonical name [k]
    under any role. *)
Fixpoint all_papers_of (self : PersonIndex) (cs : list call) (k : PersonName)
  : list string :=
  match cs with
  | [] => []
  | Register name paper r :: cs' =>
      (if decide (get_canonical_variant self name = k) then [full_id paper] else [])
      ++ all_papers_of self cs' k
  | _ :: cs' => all_papers_of self cs' k
  end.

(** How often the papers of the registrations of the canonical name [k] list
    a name with the canonical form [a], other than [k] itself, under the
    role of the registration. *)
Fixpoint coauthored (self : PersonIndex) (cs : list call) (k a : PersonName) : Z :=
  match cs with
  | [] => 0
  | Register name paper r :: cs' =>
      ((if decide (get_canonical_variant self name = k ∧ a ≠ k)
        then Z.of_nat (length (filter (λ b, get_canonical_variant self b = a)
                                      (get paper r)))
        else 0)
       + coauthored self cs' k a)%Z
  | _ :: cs' => coauthored self cs' k a
  end.

(** No role is twice in the table of a name. *)
Definition tables_nodup (self : PersonIndex) : Prop :=
  ∀ k d, papers self !! k = Some d → NoDup d.*1.

(** Every name the calls register is separable in canonical form. *)
Definition all_separable (self : PersonIndex) (cs : list call) : bool :=
  forallb (λ c, match c with
                | Register name _ _ =>
                    PersonName.separable (get_canonical_variant self name)
                | _ => true
                end) cs.

(** What holds of an index whose registered names are [R]: the slugs in use
    are reserved and belong to different registered names, a name that was
    only looked up has no paper and no co-author, and every registered name
    has its serialized form among the keys of [names]. *)
Record index_inv (R : gset PersonName) (self : PersonIndex) : Prop := {
  inv_empty_used : "" ∈ _all_slugs self;
  inv_slug_used :
    ∀ k s, slugs self !! k = Some s → s ∈ _all_slugs self ∧ s ≠ "";
  inv_slug_registered : ∀ k, is_Some (slugs self !! k) → k ∈ R;
  inv_slug_inj :
    ∀ k1 k2 s, slugs self !! k1 = Some s → slugs self !! k2 = Some s → k1 = k2;
  inv_papers :
    ∀ k d, papers self !! k = Some d → k ∉ R → Forall (λ e, e.2 = []) d;
  inv_coauthors : ∀ k c, coauthors self !! k = Some c → k ∉ R → c = ∅;
  inv_names :
    ∀ r n, names self !! r = Some n →
           repr n = r ∧ n ∈ R ∧ is_Some (slugs self !! n);
  inv_registered :
    ∀ k, k ∈ R → is_Some (names self !! repr k) ∧ is_Some (papers self !! k);
}.

(** ** A sample slugification routine *)

(** Modelled from the spec: [slugify] is external (the [slugify] package is
    not part of the sources); this sample follows its contract on strings of
    letters, digits and punctuation: letters are lowercased, and every run
    of other characters becomes one hyphen, none at either end. *)
Module Sample.

Definition token_char (c : ascii) : option ascii :=
  let n := nat_of_ascii c in
  if ((48 <=? n)%nat && (n <=? 57)%nat) || ((97 <=? n)%nat && (n <=? 122)%nat)
  then Some c
  else if ((65 <=? n)%nat && (n <=? 90)%nat) then Some (ascii_of_nat (n + 32))
  else None.

(** [started]: a token character was emitted; [gap]: other characters
    were passed since. *)
Fixpoint slugify_go (started gap : bool) (s : string) : string :=
  match s with
  | EmptyString => EmptyString
  | String c s' =>
      match token_char c with
      | Some d =>
          if started && gap then String "-" (String d (slugify_go true false s'))
          else String d (slugify_go true false s')
      | None => slugify_go started true s'
      end
  end.

Definition slugify (s : string) : string := slugify_go false false s.

(** A paper with two authors, and one with none. *)
Definition jane : PersonName := mkName "Jane" "Smith" "".
Definition bob : PersonName := mkName "Bob" "Jones" "Jr.".

Definition paper1 : Paper :=
  mkPaper "2024.bea-1.1" (λ role, if decide (role = "author") then [jane; bob] else []).

Definition paper2 : Paper := mkPaper "2024.bea-1.2" (λ _, []).

End Sample.

(** * Properties *)

(** ** Strings *)

Module StrFacts.
Import Str.

Lemma lstrip_fixed s : lstrip (lstrip s) = lstrip s.
Proof.
  induction s as [|c s IH]; simpl; [done|].
  destruct (isspace c) eqn:E; [done|]. simpl. by rewrite E.
Qed.

Lemma rstrip_cons c s :
  rstrip (String c s) = String c s → rstrip s = s.
Proof.
  simpl. destruct (rstrip s) as [|d r] eqn:E.
  - destruct (isspace c); [done|]. by intros [= <-].
  - by intros [= <-].
Qed.

Lemma rstrip_fixed s : rstrip (rstrip s) = rstrip s.
Proof.
  induction s as [|c s IH]; simpl; [done|].
  destruct (rstrip s) as [|d r] eqn:E.
  - destruct (isspace c) eqn:Ec; simpl; [done|]. by rewrite Ec.
  - change (rstrip (String c (String d r))) with
      (match rstrip (String d r) with
       | "" => if isspace c then "" else String c ""
       | r' => String c r'
       end).
    by rewrite IH.
Qed.

Lemma rstrip_lstrip s : rstrip s = s → rstrip (lstrip s) = lstrip s.
Proof.
  induction s as [|c s IH]; [done|]. intros Hs.
  cbn [lstrip]. destruct (isspace c); [|done].
  apply IH. by eapply rstrip_cons.
Qed.

Lemma strip_fixed s : strip (strip s) = strip s.
Proof.
  unfold strip.
  rewrite (rstrip_lstrip (rstrip s)) by apply rstrip_fixed.
  apply lstrip_fixed.
Qed.

Lemma app_cons c a b : String c a +:+ b = String c (a +:+ b).
Proof. reflexivity. Qed.

Lemma app_empty_r a : a +:+ "" = a.
Proof. induction a as [|c a IH]; [done|]. by rewrite app_cons, IH. Qed.

Lemma startswith_cons a p b s :
  startswith (String a p) (String b s) = true ↔ a = b ∧ startswith p s = true.
Proof. cbn [startswith]. destruct (decide (a = b)); intuition congruence. Qed.

Lemma contains_cons p c s :
  contains p (String c s) = false →
  startswith p (String c s) = false ∧ contains p s = false.
Proof. cbn [contains]. apply orb_false_elim. Qed.

Lemma endswith_cons p c s :
  endswith p (String c s) = false → String c s ≠ p ∧ endswith p s = false.
Proof.
  cbn [endswith]. intros [H1 H2]%orb_false_elim. split; [|done].
  by apply bool_decide_eq_false in H1.
Qed.

(** A string without separator is one part. *)
Lemma split_whole a : contains " || " a = false → split " || " a = [a].
Proof.
  unfold split. induction a as [|c a IH]; [done|].
  intros [Hs Hc]%contains_cons. cbn [split_go]. by rewrite Hs, IH.
Qed.

(** The first part of a string is what stands before its first separator. *)
Lemma split_app a rest :
  contains " || " a = false → endswith " ||" a = false →
  split " || " (a +:+ " || " +:+ rest) = a :: split " || " rest.
Proof.
  unfold split. induction a as [|c a IH]; [done|].
  intros [Hs Hc]%contains_cons [Hne He]%endswith_cons.
  rewrite app_cons. cbn [split_go].
  destruct (startswith " || " (String c (a +:+ " || " +:+ rest))) eqn:E.
  - exfalso. apply startswith_cons in E as [<- E].
    destruct a as [|x a]; [done|]. rewrite app_cons in E.
    apply startswith_cons in E as [<- E].
    destruct a as [|y a]; [done|]. rewrite app_cons in E.
    apply startswith_cons in E as [<- E].
    destruct a as [|z a]; [done|]. rewrite app_cons in E.
    apply startswith_cons in E as [<- _]. done.
  - by rewrite IH.
Qed.

Lemma format_2 a b : format "{} || {}" [a; b] = a +:+ " || " +:+ b.
Proof. cbn [format]. by rewrite app_empty_r. Qed.

Lemma format_3 a b c :
  format "{} || {} || {}" [a; b; c] = a +:+ " || " +:+ b +:+ " || " +:+ c.
Proof. cbn [format]. by rewrite app_empty_r. Qed.

Lemma format_concat a b : format "{}{}" [a; b] = a +:+ b.
Proof. cbn [format]. by rewrite app_empty_r. Qed.

End StrFacts.

(** ** Names and their serialized form *)

Module NameFacts.
Import Str StrFacts PersonName.

Lemma truthy_spec s : truthy s = true ↔ s ≠ "".
Proof. by destruct s. Qed.

Lemma eq_spec (a b : PersonName) : __eq__ a b = true ↔ a = b.
Proof.
  unfold __eq__. rewrite !andb_true_iff, !bool_decide_eq_true.
  destruct a, b; simpl. split; [by intros [[-> ->] ->] | by intros [= -> -> ->]].
Qed.

Lemma init_fixed f l j :
  let n := __init__ f l j in __init__ (first n) (last n) (jr n) = n.
Proof. unfold __init__; simpl. by rewrite !strip_fixed. Qed.

Lemma inner_part_spec s :
  inner_part s = true ↔ contains " || " s = false ∧ endswith " ||" s = false.
Proof. unfold inner_part. rewrite andb_true_iff, !negb_true_iff. done. Qed.

Lemma final_part_spec s : final_part s = true ↔ contains " || " s = false.
Proof. unfold final_part. by rewrite negb_true_iff. Qed.

Lemma inner_part_final s : inner_part s = true → final_part s = true.
Proof. rewrite inner_part_spec, final_part_spec. tauto. Qed.

(** The three shapes of a serialized name. *)
Lemma repr_jr n :
  jr n ≠ "" → repr n = first n +:+ " || " +:+ last n +:+ " || " +:+ jr n.
Proof.
  intros H%truthy_spec. unfold __repr__. by rewrite H, format_3.
Qed.

Lemma repr_first n :
  jr n = "" → first n ≠ "" → repr n = first n +:+ " || " +:+ last n.
Proof.
  intros Hj H%truthy_spec. unfold __repr__. by rewrite Hj, H, format_2.
Qed.

Lemma repr_last n : jr n = "" → first n = "" → repr n = last n.
Proof. intros Hj Hf. unfold __repr__. by rewrite Hj, Hf. Qed.

Lemma split_repr n :
  separable n = true → split " || " (repr n) = parts n.
Proof.
  unfold separable. rewrite !andb_true_iff.
  intros [[[Hf Hf']%inner_part_spec Hl] Hj%final_part_spec].
  unfold parts. destruct (truthy (jr n)) eqn:Ej.
  - apply inner_part_spec in Hl as [Hl Hl'].
    rewrite repr_jr by by apply truthy_spec.
    rewrite !split_app by done. by rewrite split_whole.
  - assert (jr n = "") as Ej' by by destruct (jr n).
    apply inner_part_final, final_part_spec in Hl.
    destruct (truthy (first n)) eqn:Ef.
    + rewrite repr_first by (done || by apply truthy_spec).
      rewrite split_app by done. by rewrite split_whole.
    + assert (first n = "") as Ef' by by destruct (first n).
      rewrite repr_last by done. by apply split_whole.
Qed.

Lemma parts_inj a b : parts a = parts b → a = b.
Proof.
  unfold parts. destruct a as [fa la ja], b as [fb lb jb]; simpl.
  destruct ja, jb, fa, fb; naive_solver.
Qed.

(** Separable names with one serialized form are one name. *)
Lemma repr_inj a b :
  separable a = true → separable b = true → repr a = repr b → a = b.
Proof.
  intros Ha Hb E. apply parts_inj.
  by rewrite <-!split_repr, E.
Qed.

(** A string without separator is read as a first name. *)
Lemma from_repr_whole s :
  contains " || " s = false → from_repr s = __init__ s "" "".
Proof. intros H. unfold from_repr. by rewrite split_whole. Qed.

Lemma from_repr_parts n :
  separable n = true →
  from_repr (repr n) =
    __init__ (default "" (parts n !! 0%nat)) (part (parts n) 1) (part (parts n) 2).
Proof. intros H. unfold from_repr. by rewrite split_repr. Qed.

End NameFacts.

Section Serialization.
Import Str StrFacts PersonName NameFacts.

(** C7: the serialized form of a name is [first || last || jr] when [jr] is
    not empty, else [first || last] when [first] is not empty, else [last]
    alone; so ("", "Smith", "") gives "Smith", ("Jane", "Smith", "") gives
    "Jane || Smith" and ("Jane", "Smith", "Jr.") gives
    "Jane || Smith || Jr.". *)
Theorem repr_rule (n : PersonName) :
  repr n =
    (if decide (jr n ≠ "") then first n +:+ " || " +:+ last n +:+ " || " +:+ jr n
     else if decide (first n ≠ "") then first n +:+ " || " +:+ last n
     else last n)
  ∧ repr (__init__ "" "Smith" "") = "Smith"
  ∧ repr (__init__ "Jane" "Smith" "") = "Jane || Smith"
  ∧ repr (__init__ "Jane" "Smith" "Jr.") = "Jane || Smith || Jr.".
Proof.
  split; [|done].
  destruct (decide (jr n ≠ "")) as [Hj|Hj%dec_stable]; [by apply repr_jr|].
  destruct (decide (first n ≠ "")) as [Hf|Hf%dec_stable];
    [by apply repr_first | by apply repr_last].
Qed.

(** C1 (amended): a name built by the constructor whose [last] is not
    empty, whose [first] or [jr] is not empty, and whose parts hold no
    separator and ([first], [last]) do not end in " ||", is read back from
    its serialized form with the same parts. *)
Theorem from_repr_repr (f l j : string) :
  let n := __init__ f l j in
  last n ≠ "" → separable n = true → first n ≠ "" ∨ jr n ≠ "" →
  from_repr (repr n) = n.
Proof.
  intros n _ Hsep Hne. rewrite from_repr_parts by done.
  unfold parts. destruct (truthy (jr n)) eqn:Ej.
  - apply init_fixed.
  - assert (jr n = "") as Ej' by by destruct (jr n).
    destruct (truthy (first n)) eqn:Ef.
    + unfold part; simpl.
      transitivity (__init__ (first n) (last n) (jr n)); [by rewrite Ej'|].
      apply init_fixed.
    + exfalso. destruct Hne as [H|H]; [by destruct (first n)|done].
Qed.

(** C1 on a sample: a name with all three parts. *)
Lemma from_repr_repr_witness :
  from_repr (repr (__init__ " Jane" "Smith " "Jr.")) = __init__ " Jane" "Smith " "Jr.".
Proof.
  apply (from_repr_repr " Jane" "Smith " "Jr."); [done | reflexivity | by left].
Defined.

(** C1 fails as stated: the name ("", "Smith", "") is serialized as
    "Smith" and read back as ("Smith", "", ""); and the parts "a ||" and
    "b", neither of which holds the separator, are read back as "a" and
    "|| b". *)
Lemma from_repr_repr_counterexample :
  (let n := __init__ "" "Smith" "" in
   last n ≠ "" ∧ no_separator n = true ∧ repr n = "Smith"
   ∧ from_repr (repr n) = mkName "Smith" "" "" ∧ from_repr (repr n) ≠ n)
  ∧ (let n := __init__ "a ||" "b" "" in
     last n ≠ "" ∧ no_separator n = true
     ∧ from_repr (repr n) = mkName "a" "|| b" "" ∧ from_repr (repr n) ≠ n).
Proof. by repeat split. Qed.

(** C2 (the code differs): a string without separator becomes the [first]
    part, not the [last] part: "Smith" is read as ("Smith", "", ""). *)
Theorem from_repr_bare :
  contains " || " "Smith" = false
  ∧ from_repr "Smith" = mkName "Smith" "" ""
  ∧ last (from_repr "Smith") ≠ "Smith"
  ∧ from_repr "Smith" ≠ mkName "" "Smith" "".
Proof. by repeat split. Qed.

End Serialization.

(** ** The slug loop *)

Section SlugLoop.
Import Str StrFacts.
Variable slugify : string → string.

Global Instance candidate_inj name_repr : Inj (=) (=) (candidate slugify name_repr).
Proof.
  intros x y H. unfold candidate in H.
  by apply (inj (String.app _)), (inj pretty) in H.
Qed.

(** What the loop returns is outside the set, and it is the first such
    string among the current one and the candidates that follow. *)
Lemma slug_loop_Some fuel used r slug i s :
  slug_loop slugify fuel used r slug i = Some s →
  (s ∉ used)
  ∧ (s = slug
     ∨ slug ∈ used
       ∧ ∃ j, (i < j)%N ∧ s = candidate slugify r j
              ∧ ∀ j', (i < j' < j)%N → candidate slugify r j' ∈ used).
Proof.
  revert slug i. induction fuel as [|fuel IH]; intros slug i; cbn [slug_loop];
    destruct (decide (slug ∈ used)) as [Hin|Hout]; try done;
    try (intros [= <-]; by auto).
  rewrite format_concat. intros [Hs Hcase]%IH. split; [done|]. right.
  split; [done|]. destruct Hcase as [->|(Hin' & j & Hj & -> & Hbelow)].
  - exists (i + 1)%N. split; [lia|]. split; [done|]. intros j' ?. lia.
  - exists j. split; [lia|]. split; [done|]. intros j' Hj'.
    destruct (decide (j' = i + 1)%N) as [->|]; [done|]. apply Hbelow. lia.
Qed.

Lemma slug_loop_None fuel used r slug i :
  slug_loop slugify fuel used r slug i = None →
  ∀ j, (i < j ≤ i + N.of_nat fuel)%N → candidate slugify r j ∈ used.
Proof.
  revert slug i. induction fuel as [|fuel IH]; intros slug i; cbn [slug_loop];
    destruct (decide (slug ∈ used)) as [Hin|Hout]; try done.
  - intros _ j ?. lia.
  - rewrite format_concat. intros Hnone j Hj.
    destruct (decide (j = i + 1)%N) as [->|].
    + unfold candidate.
      destruct fuel; cbn [slug_loop] in Hnone;
        by destruct (decide (slugify r +:+ pretty (i + 1)%N ∈ used)).
    + apply (IH _ _ Hnone). lia.
Qed.

(** The loop ends: a finite set cannot hold all the candidates. *)
Lemma slug_loop_total used r slug i :
  is_Some (slug_loop slugify (S (size used)) used r slug i).
Proof.
  destruct (slug_loop _ _ _ _ _ _) as [s|] eqn:E; [by eexists|]. exfalso.
  pose proof (slug_loop_None _ _ _ _ _ E) as Hall.
  set (l := (λ k : nat, candidate slugify r (i + 1 + N.of_nat k)) <$> seq 0 (S (size used))).
  assert (NoDup l) as Hnd.
  { apply NoDup_fmap_2; [|apply NoDup_seq].
    intros x y H%(inj (candidate slugify r)). lia. }
  assert (list_to_set l ⊆ used) as Hsub.
  { intros x [k [-> Hk%elem_of_seq]]%elem_of_list_to_set%list_elem_of_fmap.
    apply Hall. lia. }
  apply subseteq_size in Hsub.
  rewrite size_list_to_set in Hsub by done.
  unfold l in Hsub. rewrite length_fmap, length_seq in Hsub. lia.
Qed.

End SlugLoop.

(** ** Registration, field by field *)

Section RegisterFacts.
Variable slugify : string → string.

Lemma canonical_variants s1 s2 n :
  variants s1 = variants s2 → get_canonical_variant s1 n = get_canonical_variant s2 n.
Proof. unfold get_canonical_variant. by intros ->. Qed.

Lemma add_coauthor_frame c self a :
  let self' := add_coauthor c self a in
  names self' = names self ∧ variants self' = variants self
  ∧ _all_slugs self' = _all_slugs self ∧ slugs self' = slugs self
  ∧ papers self' = papers self.
Proof. unfold add_coauthor. by destruct (PersonName.__eq__ _ _). Qed.

Lemma fold_add_coauthor_frame c l self :
  let self' := fold_left (add_coauthor c) l self in
  names self' = names self ∧ variants self' = variants self
  ∧ _all_slugs self' = _all_slugs self ∧ slugs self' = slugs self
  ∧ papers self' = papers self.
Proof.
  revert self. induction l as [|a l IH]; intros self; [done|]. simpl.
  destruct (IH (add_coauthor c self a)) as (-> & -> & -> & -> & ->).
  apply add_coauthor_frame.
Qed.

Lemma add_coauthor_other c self a b :
  b ≠ c → coauthors (add_coauthor c self a) !! b = coauthors self !! b.
Proof.
  intros Hb. unfold add_coauthor. destruct (PersonName.__eq__ _ _); [done|].
  simpl. by rewrite lookup_insert_ne.
Qed.

Lemma add_coauthor_count c self a x :
  coauthor_count (add_coauthor c self a) c x =
    (coauthor_count self c x
     + if decide (x ≠ c ∧ get_canonical_variant self a = x) then 1 else 0)%Z.
Proof.
  unfold add_coauthor, coauthor_count.
  destruct (PersonName.__eq__ _ _) eqn:E.
  - apply NameFacts.eq_spec in E. rewrite decide_False by (intros [? ?]; congruence). lia.
  - assert (get_canonical_variant self a ≠ c) as Hne.
    { intros H%NameFacts.eq_spec. congruence. }
    simpl. rewrite lookup_insert_eq. simpl. unfold count.
    destruct (decide (get_canonical_variant self a = x)) as [<-|Hx].
    + rewrite lookup_insert_eq, decide_True by auto. done.
    + rewrite lookup_insert_ne, decide_False by tauto. simpl. lia.
Qed.

Lemma fold_add_coauthor_other c l self b :
  b ≠ c → coauthors (fold_left (add_coauthor c) l self) !! b = coauthors self !! b.
Proof.
  intros Hb. revert self. induction l as [|a l IH]; intros self; [done|].
  simpl. rewrite IH. by apply add_coauthor_other.
Qed.

Lemma fold_add_coauthor_count c l self x :
  coauthor_count (fold_left (add_coauthor c) l self) c x =
    (coauthor_count self c x
     + if decide (x = c) then 0
       else Z.of_nat (length (filter (λ a, get_canonical_variant self a = x) l)))%Z.
Proof.
  revert self. induction l as [|a l IH]; intros self.
  - simpl. destruct (decide (x = c)); simpl; lia.
  - cbn [fold_left]. rewrite IH, add_coauthor_count.
    assert (∀ b, get_canonical_variant (add_coauthor c self a) b
                 = get_canonical_variant self b) as Hcan.
    { intros b. apply canonical_variants, add_coauthor_frame. }
    rewrite (list_filter_iff _ (λ b, get_canonical_variant self b = x) l)
      by (intros b; by rewrite Hcan).
    rewrite filter_cons.
    destruct (decide (x = c)) as [->|Hx].
    + rewrite decide_False by tauto. lia.
    + destruct (decide (get_canonical_variant self a = x)) as [Ha|Ha].
      * rewrite decide_True by auto. simpl. lia.
      * rewrite decide_False by tauto. lia.
Qed.

Lemma add_name_inv self c r mid :
  add_name slugify self c r = Some mid →
  ∃ slug, slug_loop slugify (S (size (_all_slugs self))) (_all_slugs self)
                    r (slugify r) 0 = Some slug
          ∧ mid = mkIndex (<[r := c]> (names self)) (variants self)
                          ({[ slug ]} ∪ _all_slugs self) (<[c := slug]> (slugs self))
                          (coauthors self) (papers self).
Proof.
  unfold add_name. destruct (slug_loop _ _ _ _ _ _) as [slug|]; [|done].
  intros [= <-]. by exists slug.
Qed.

Lemma register_inv self n p r x self' :
  register slugify self n p r = Some (x, self') →
  let c := get_canonical_variant self n in
  ∃ mid,
    (if decide (repr c ∈ dom (names self)) then mid = self
     else add_name slugify self c (repr c) = Some mid)
    ∧ x = repr c
    ∧ self' = fold_left (add_coauthor c) (get p r)
                (set_papers mid
                   (<[c := Roles.append r (full_id p) (default [] (papers mid !! c))]>
                      (papers mid))).
Proof.
  intros H c. unfold register in H. fold c in H.
  destruct (decide (repr c ∈ dom (names self))).
  - simpl in H. revert H. intros [= <- <-]. by exists self.
  - destruct (add_name slugify self c (repr c)) as [mid|]; [|done].
    simpl in H. revert H. intros [= <- <-]. by exists mid.
Qed.

(** Registration returns. *)
Lemma register_total self n p r : is_Some (register slugify self n p r).
Proof.
  unfold register. destruct (decide _); [by eexists|].
  unfold add_name.
  destruct (slug_loop_total slugify (_all_slugs self)
              (repr (get_canonical_variant self n))
              (slugify (repr (get_canonical_variant self n))) 0) as [slug ->].
  by eexists.
Qed.

(** What registration does to each field. *)
Lemma register_spec self n p r x self' :
  register slugify self n p r = Some (x, self') →
  let c := get_canonical_variant self n in
  x = repr c
  ∧ variants self' = variants self
  ∧ papers self' =
      <[c := Roles.append r (full_id p) (default [] (papers self !! c))]> (papers self)
  ∧ (∀ b, b ≠ c → coauthors self' !! b = coauthors self !! b)
  ∧ (∀ a, coauthor_count self' c a =
          (coauthor_count self c a
           + if decide (a = c) then 0
             else Z.of_nat (length (filter (λ b, get_canonical_variant self b = a)
                                           (get p r))))%Z)
  ∧ (repr c ∈ dom (names self) →
     names self' = names self ∧ slugs self' = slugs self
     ∧ _all_slugs self' = _all_slugs self)
  ∧ (repr c ∉ dom (names self) →
     ∃ slug, slug_loop slugify (S (size (_all_slugs self))) (_all_slugs self)
                       (repr c) (slugify (repr c)) 0 = Some slug
             ∧ names self' = <[repr c := c]> (names self)
             ∧ slugs self' = <[c := slug]> (slugs self)
             ∧ _all_slugs self' = {[ slug ]} ∪ _all_slugs self).
Proof.
  intros (mid & Hmid & -> & ->)%register_inv c. fold c in Hmid. fold c.
  set (start := set_papers mid _).
  destruct (fold_add_coauthor_frame c (get p r) start) as (Hn & Hv & Hu & Hs & Hp).
  assert (variants mid = variants self ∧ papers mid = papers self
          ∧ coauthors mid = coauthors self) as (Hv' & Hp' & Hc').
  { destruct (decide _); [by subst|].
    apply add_name_inv in Hmid as (slug & _ & ->). done. }
  split; [done|]. split; [by rewrite Hv|]. split; [by rewrite Hp; simpl; rewrite Hp'|].
  split; [intros b Hb; rewrite fold_add_coauthor_other by done; simpl; by rewrite Hc'|].
  split.
  { intros a. rewrite fold_add_coauthor_count.
    rewrite (list_filter_iff _ (λ b, get_canonical_variant self b = a) (get p r))
      by (intros b; by rewrite (canonical_variants start self)).
    unfold coauthor_count; simpl. by rewrite Hc'. }
  rewrite Hn, Hs, Hu. unfold start, set_papers; cbn [names slugs _all_slugs].
  destruct (decide (repr c ∈ dom (names self))) as [Hin|Hout]; split; try done.
  - intros _. by subst.
  - intros _. apply add_name_inv in Hmid as (slug & Hloop & ->). by exists slug.
Qed.

End RegisterFacts.

(** ** Sequences of calls *)

Section Runs.
Variable slugify : string → string.

Lemma touch_empty role (d : Roles.t) :
  Forall (λ e, e.2 = []) d → Forall (λ e, e.2 = []) (Roles.touch role d).
Proof.
  intros H. unfold Roles.touch. destruct (Roles.lookup role d); [done|].
  apply Forall_app. split; [done|]. by apply Forall_singleton.
Qed.

Lemma roles_lookup_empty role (d : Roles.t) l :
  Forall (λ e, e.2 = []) d → Roles.lookup role d = Some l → l = [].
Proof.
  induction 1 as [|[r l'] d Hx _ IH]; simpl; [done|].
  destruct (decide (r = role)); [|done]. by intros [= <-].
Qed.

Lemma getitem_empty role (d : Roles.t) :
  Forall (λ e, e.2 = []) d → Roles.getitem role d = [].
Proof.
  intros H. unfold Roles.getitem.
  destruct (Roles.lookup role d) as [l|] eqn:E; [|done].
  simpl. by eapply roles_lookup_empty.
Qed.

Lemma all_values_empty (d : Roles.t) :
  Forall (λ e, e.2 = []) d → Roles.all_values d = [].
Proof.
  unfold Roles.all_values. induction 1 as [|[r l] d Hx _ IH]; [done|].
  rewrite fmap_cons. cbn [concat]. simpl in Hx. rewrite Hx. exact IH.
Qed.

Lemma load_variant_list_frame self d :
  let self' := load_variant_list self d in
  names self' = names self ∧ _all_slugs self' = _all_slugs self
  ∧ slugs self' = slugs self ∧ coauthors self' = coauthors self
  ∧ papers self' = papers self.
Proof.
  unfold load_variant_list. revert self.
  induction d as [|[canonical vs] d IH]; intros self; [done|].
  cbn [fold_left]. destruct (IH (fold_left
    (λ self variant, set_variants self (<[variant:=canonical]> (variants self)))
    vs self)) as (-> & -> & -> & -> & ->).
  clear IH. revert self. induction vs as [|v vs IH]; intros self; [done|].
  cbn [fold_left]. by destruct (IH (set_variants self
    (<[v:=canonical]> (variants self)))) as (-> & -> & -> & -> & ->).
Qed.

Lemma init_inv name_dict : index_inv ∅ (__init__ name_dict).
Proof.
  assert (index_inv ∅ (mkIndex ∅ ∅ {[ "" ]} ∅ ∅ ∅)) as H0.
  { split; simpl; try done; intros *; try rewrite lookup_empty; done. }
  unfold __init__. destruct name_dict as [d|]; [|done].
  destruct (load_variant_list_frame (mkIndex ∅ ∅ {[ "" ]} ∅ ∅ ∅) d)
    as (Hn & Hu & Hs & Hc & Hp).
  destruct H0. split; rewrite ?Hn, ?Hu, ?Hs, ?Hc, ?Hp; done.
Qed.

Lemma get_venues_state self vidx q :
  (get_venues self vidx q).2 = (get_papers self q None).2.
Proof. unfold get_venues. by destruct (get_papers self q None). Qed.

Lemma step_variants self c self' :
  step slugify self c = Some self' → variants self' = variants self.
Proof.
  destruct c as [n p r|n|n role|n|vidx n]; cbn [step].
  - destruct (register slugify self n p r) as [[x s1]|] eqn:E; [|done].
    intros [= <-]. by apply register_spec in E as (_ & ? & _).
  - by intros [= <-].
  - intros [= <-]. by destruct role.
  - by intros [= <-].
  - rewrite get_venues_state. by intros [= <-].
Qed.

Lemma registered_variants s1 s2 cs :
  variants s1 = variants s2 → registered s1 cs = registered s2 cs.
Proof.
  intros Hv. induction cs as [|[] cs IH]; simpl; try done.
  by rewrite IH, (canonical_variants s1 s2).
Qed.

Lemma step_total self c : is_Some (step slugify self c).
Proof.
  destruct c; simpl; try by eexists.
  destruct (register_total slugify self name paper role) as [[x s1] ->].
  by eexists.
Qed.

(** Every sequence of calls runs to its end. *)
Lemma run_total self cs : is_Some (run slugify self cs).
Proof.
  revert self. induction cs as [|c cs IH]; intros self; simpl; [by eexists|].
  destruct (step_total self c) as [s1 ->]. simpl. apply IH.
Qed.

(** A look-up keeps what holds of the index. *)
Lemma inv_get_papers R self q role :
  index_inv R self → index_inv R (get_papers self q role).2.
Proof.
  intros [H1 H2 H3 H4 H5 H6 H7 H8].
  set (c := get_canonical_variant self q).
  set (d := default [] (papers self !! c)).
  assert (c ∉ R → Forall (λ e, e.2 = []) d) as Hd.
  { intros Hc. unfold d. destruct (papers self !! c) as [d0|] eqn:E; simpl; eauto. }
  assert (∃ d', (c ∉ R → Forall (λ e, e.2 = []) d')
                ∧ (get_papers self q role).2 = set_papers self (<[c := d']> (papers self)))
    as (d' & Hd' & ->).
  { unfold get_papers. fold c d. destruct role as [role|]; simpl.
    - exists (Roles.touch role d). split; [|done]. intros ?. by apply touch_empty, Hd.
    - by exists d. }
  split; simpl; try done.
  - intros k d0. destruct (decide (c = k)) as [<-|Hk].
    + rewrite lookup_insert_eq. intros [= <-]. done.
    + rewrite lookup_insert_ne by done. apply H5.
  - intros k Hk. destruct (H8 k Hk) as [? ?]. split; [done|].
    apply lookup_insert_is_Some'. by right.
Qed.

Lemma inv_get_coauthors R self q :
  index_inv R self → index_inv R (get_coauthors self q).2.
Proof.
  intros [H1 H2 H3 H4 H5 H6 H7 H8]. unfold get_coauthors.
  set (c := get_canonical_variant self q).
  split; simpl; try done.
  intros k c0. destruct (decide (c = k)) as [<-|Hk].
  - rewrite lookup_insert_eq. intros [= <-] Hc.
    destruct (coauthors self !! c) as [c0|] eqn:E; simpl; eauto.
  - rewrite lookup_insert_ne by done. apply H6.
Qed.

(** Registration keeps it, with the registered name added. *)
Lemma inv_register R self n p r x self' :
  index_inv R self → register slugify self n p r = Some (x, self') →
  index_inv ({[ get_canonical_variant self n ]} ∪ R) self'.
Proof.
  intros [H1 H2 H3 H4 H5 H6 H7 H8] Hreg.
  apply register_spec in Hreg as (_ & Hv & Hp & Hco & _ & Hin & Hout).
  set (c := get_canonical_variant self n) in *.
  assert (∀ k : PersonName, k ∉ {[c]} ∪ R → k ≠ c ∧ k ∉ R) as Hnot by set_solver.
  assert (∀ k d, papers self' !! k = Some d → k ∉ {[c]} ∪ R →
                 Forall (λ e, e.2 = []) d) as H5'.
  { intros k d Hk [Hkc HkR]%Hnot. rewrite Hp, lookup_insert_ne in Hk by done. eauto. }
  assert (∀ k c0, coauthors self' !! k = Some c0 → k ∉ {[c]} ∪ R → c0 = ∅) as H6'.
  { intros k c0 Hk [Hkc HkR]%Hnot. rewrite Hco in Hk by done. eauto. }
  assert (∀ k, is_Some (papers self !! k) ∨ k = c → is_Some (papers self' !! k)) as Hpap.
  { intros k Hk. rewrite Hp. apply lookup_insert_is_Some'.
    destruct Hk as [?| ->]; auto. }
  destruct (decide (repr c ∈ dom (names self))) as [Hdom|Hdom].
  - destruct (Hin Hdom) as (Hn & Hs & Hu). apply elem_of_dom in Hdom.
    split; rewrite ?Hn, ?Hs, ?Hu; try done.
    + intros k Hk. apply H3 in Hk. set_solver.
    + intros r0 n0 Hr0. destruct (H7 r0 n0 Hr0) as (? & ? & ?).
      split; [done|]. split; [set_solver|done].
    + intros k [->%elem_of_singleton|Hk]%elem_of_union.
      * split; [done|]. apply Hpap. by right.
      * destruct (H8 k Hk). split; [done|]. apply Hpap. by left.
  - destruct (Hout Hdom) as (slug & Hloop & Hn & Hs & Hu).
    apply slug_loop_Some in Hloop as [Hfresh _].
    apply not_elem_of_dom in Hdom.
    split; rewrite ?Hn, ?Hs, ?Hu; try done.
    + set_solver.
    + intros k s. destruct (decide (c = k)) as [<-|Hk].
      * rewrite lookup_insert_eq. intros [= <-].
        split; [set_solver|]. by intros ->.
      * rewrite lookup_insert_ne by done. intros [? ?]%H2. split; [set_solver|done].
    + intros k. destruct (decide (c = k)) as [<-|Hk]; [set_solver|].
      rewrite lookup_insert_ne by done. intros ?%H3. set_solver.
    + intros k1 k2 s.
      destruct (decide (c = k1)) as [<-|Hk1], (decide (c = k2)) as [<-|Hk2];
        rewrite ?lookup_insert_eq, ?lookup_insert_ne by done; try done.
      * intros [= <-] [? ?]%H2. done.
      * intros [? ?]%H2 [= <-]. done.
      * apply H4.
    + intros r0 n0. destruct (decide (repr c = r0)) as [<-|Hr0].
      * rewrite lookup_insert_eq. intros [= <-].
        split; [done|]. split; [set_solver|]. rewrite lookup_insert_eq. by eexists.
      * rewrite lookup_insert_ne by done. intros (? & ? & ?)%H7.
        split; [done|]. split; [set_solver|].
        apply lookup_insert_is_Some'. by right.
    + intros k [->%elem_of_singleton|Hk]%elem_of_union.
      * split; [rewrite lookup_insert_eq; by eexists|]. apply Hpap. by right.
      * destruct (H8 k Hk). split; [apply lookup_insert_is_Some'; by right|].
        apply Hpap. by left.
Qed.

Lemma inv_step R self c self' :
  index_inv R self → step slugify self c = Some self' →
  index_inv (registered self [c] ∪ R) self'.
Proof.
  intros HI. destruct c as [n p r|n|n role|n|vidx n]; cbn [step registered].
  - destruct (register slugify self n p r) as [[x s1]|] eqn:E; [|done].
    intros [= <-]. rewrite (right_id_L ∅ (∪)). by eapply inv_register.
  - intros [= <-]. by rewrite (left_id_L ∅ (∪)).
  - intros [= <-]. rewrite (left_id_L ∅ (∪)). by apply inv_get_papers.
  - intros [= <-]. rewrite (left_id_L ∅ (∪)). by apply inv_get_coauthors.
  - rewrite get_venues_state. intros [= <-]. rewrite (left_id_L ∅ (∪)).
    exact (inv_get_papers R self n None HI).
Qed.

Lemma registered_cons self c cs :
  registered self (c :: cs) = registered self [c] ∪ registered self cs.
Proof. destruct c; simpl; set_solver. Qed.

Lemma run_variants self cs self' :
  run slugify self cs = Some self' → variants self' = variants self.
Proof.
  revert self. induction cs as [|c cs IH]; intros self; simpl.
  - by intros [= <-].
  - destruct (step slugify self c) as [s1|] eqn:E; [|done]. simpl.
    intros ->%IH. by eapply step_variants.
Qed.

Lemma inv_run R self cs self' :
  index_inv R self → run slugify self cs = Some self' →
  index_inv (registered self cs ∪ R) self'.
Proof.
  revert R self. induction cs as [|c cs IH]; intros R self HI; simpl.
  - intros [= <-]. by rewrite (left_id_L ∅ (∪)).
  - destruct (step slugify self c) as [s1|] eqn:E; [|done]. simpl. intros Hrun.
    apply (inv_step R) in E as HI1; [|done].
    apply (IH _ _ HI1) in Hrun.
    rewrite (registered_variants s1 self) in Hrun by by eapply step_variants.
    change (index_inv (registered self (c :: cs) ∪ R) self').
    rewrite registered_cons.
    by replace (registered self [c] ∪ registered self cs ∪ R)
      with (registered self cs ∪ (registered self [c] ∪ R)) by set_solver.
Qed.

(** What holds after any sequence of calls on a new index. *)
Lemma inv_reachable name_dict cs self :
  run slugify (__init__ name_dict) cs = Some self →
  index_inv (registered (__init__ name_dict) cs) self.
Proof.
  intros H. apply (inv_run ∅) in H; [|apply init_inv].
  by rewrite (right_id_L ∅ (∪)) in H.
Qed.

(** C3: after any sequence of calls on a new index (registrations, with or
    without look-ups between them) the slugs of different names differ and
    none is the empty string. *)
Theorem slugs_unique name_dict cs :
  ∃ self, run slugify (__init__ name_dict) cs = Some self
    ∧ (∀ k1 k2 s1 s2, k1 ≠ k2 → slugs self !! k1 = Some s1 →
                      slugs self !! k2 = Some s2 → s1 ≠ s2)
    ∧ (∀ k s, slugs self !! k = Some s → s ≠ "").
Proof.
  destruct (run_total (__init__ name_dict) cs) as [self Hrun].
  exists self. split; [done|].
  apply inv_reachable in Hrun as [_ Hused _ Hinj _ _ _ _].
  split.
  - intros k1 k2 s1 s2 Hne Hk1 Hk2 <-. eauto.
  - intros k s Hk. by eapply Hused.
Qed.

(** C6: for a name whose canonical form no call registered, [get_papers],
    with or without a role, and [get_coauthors] return nothing, and
    [get_slug] raises [KeyError]. *)
Theorem unknown_lookups name_dict cs q :
  get_canonical_variant (__init__ name_dict) q ∉ registered (__init__ name_dict) cs →
  ∃ self, run slugify (__init__ name_dict) cs = Some self
    ∧ (get_papers self q None).1 = []
    ∧ (∀ role, (get_papers self q (Some role)).1 = [])
    ∧ (get_coauthors self q).1 = ∅
    ∧ get_slug self q = Raises (KeyError (get_canonical_variant self q)).
Proof.
  intros Hq. destruct (run_total (__init__ name_dict) cs) as [self Hrun].
  exists self. split; [done|].
  rewrite <-(canonical_variants self) in Hq by by eapply run_variants.
  apply inv_reachable in Hrun as [_ _ Hreg _ Hpapers Hcoauthors _ _].
  set (c := get_canonical_variant self q) in *.
  assert (Forall (λ e, e.2 = []) (default [] (papers self !! c))) as Hd.
  { destruct (papers self !! c) as [d|] eqn:E; simpl; eauto. }
  split; [by apply all_values_empty|].
  split; [intros role; by apply getitem_empty, touch_empty|].
  split.
  - unfold get_coauthors. fold c. simpl.
    destruct (coauthors self !! c) as [c0|] eqn:E; simpl; eauto.
  - unfold get_slug. fold c.
    destruct (slugs self !! c) as [s|] eqn:E; [|done].
    exfalso. apply Hq, Hreg. by eexists.
Qed.

(** C9: [register] adds to the co-author counts of the registered name one
    for every name the paper lists under the role whose canonical form
    differs from it, counted under that canonical form; its count of itself
    and the counters of all other names stay as they are. *)
Theorem register_coauthors self n p r :
  let c := get_canonical_variant self n in
  ∃ x self', register slugify self n p r = Some (x, self')
    ∧ (∀ a, a ≠ c →
            coauthor_count self' c a =
              (coauthor_count self c a
               + Z.of_nat (length (filter (λ b, get_canonical_variant self b = a)
                                          (get p r))))%Z)
    ∧ coauthor_count self' c c = coauthor_count self c c
    ∧ (∀ b, b ≠ c → coauthors self' !! b = coauthors self !! b).
Proof.
  intros c. destruct (register_total slugify self n p r) as [[x self'] Hreg].
  exists x, self'. split; [done|].
  apply register_spec in Hreg as (_ & _ & _ & Hco & Hcnt & _). fold c in Hco, Hcnt.
  split; [|split; [|done]].
  - intros a Ha. by rewrite Hcnt, decide_False.
  - rewrite Hcnt, decide_True by done. lia.
Qed.

Lemma all_separable_spec self cs k :
  all_separable self cs = true → k ∈ registered self cs →
  PersonName.separable k = true.
Proof.
  unfold all_separable. induction cs as [|c cs IH]; simpl; [set_solver|].
  intros [Hc Hcs]%andb_true_iff.
  destruct c; try by apply IH.
  intros [->%elem_of_singleton|Hk]%elem_of_union; [done|by apply IH].
Qed.

Lemma registered_elem self cs n p r :
  Register n p r ∈ cs → get_canonical_variant self n ∈ registered self cs.
Proof.
  induction cs as [|c cs IH]; [by intros ?%elem_of_nil|].
  intros [<-|Hin]%elem_of_cons; [simpl; set_solver|].
  rewrite registered_cons. set_solver.
Qed.

(** Two names with one serialized form: the second to be registered is
    given papers and no slug. *)
Lemma shared_repr_no_slug a b pa ra pb rb :
  a ≠ b → repr a = repr b →
  ∃ self, run slugify (__init__ None) [Register a pa ra; Register b pb rb] = Some self
    ∧ is_Some (slugs self !! a) ∧ is_Some (papers self !! b)
    ∧ slugs self !! b = None ∧ get_slug self b = Raises (KeyError b).
Proof.
  intros Hne Hrepr. cbn [run step].
  destruct (register_total slugify (__init__ None) a pa ra) as [[x s1] H1].
  rewrite H1. cbn [mbind option_bind fmap option_fmap option_map snd].
  destruct (register_total slugify s1 b pb rb) as [[y self] H2].
  rewrite H2. cbn [mbind option_bind fmap option_fmap option_map snd].
  exists self. split; [done|].
  apply register_spec in H1 as (_ & Hv1 & _ & _ & _ & _ & Hout).
  apply register_spec in H2 as (_ & Hv2 & Hp2 & _ & _ & Hin & _).
  assert (∀ n, get_canonical_variant (__init__ None) n = n) as Hcan0 by done.
  assert (∀ n, get_canonical_variant s1 n = n) as Hcan1.
  { intros n. by rewrite (canonical_variants s1 (__init__ None)). }
  assert (∀ n, get_canonical_variant self n = n) as Hcan.
  { intros n. rewrite (canonical_variants self s1) by done. apply Hcan1. }
  rewrite Hcan0 in Hout. rewrite Hcan1 in Hin, Hp2.
  destruct Hout as (slug & _ & Hn1 & Hs1 & _).
  { cbn. rewrite dom_empty_L. apply not_elem_of_empty. }
  destruct Hin as (_ & Hs & _).
  { rewrite Hn1, <-Hrepr, dom_insert_L. set_solver. }
  assert (slugs self !! b = None) as Hb.
  { rewrite Hs, Hs1, lookup_insert_ne by done. done. }
  split; [rewrite Hs, Hs1, lookup_insert_eq; by eexists|].
  split; [rewrite Hp2, lookup_insert_eq; by eexists|].
  split; [done|]. unfold get_slug. by rewrite Hcan, Hb.
Qed.

(** C10 (amended): when in every name to be registered no part holds the
    separator and neither [first] nor [last] ends in " ||", the keys of
    [slugs] after the calls are the registered names and [get_slug]
    returns for each.  Of two different names with one serialized form, as
    ("a ||", "b", "") and ("a", "|| b", ""), the second to be registered is
    entered in [papers] and given no slug, and [get_slug] raises
    [KeyError] for it. *)
Theorem registered_slugs name_dict cs :
  (all_separable (__init__ name_dict) cs = true →
   ∃ self, run slugify (__init__ name_dict) cs = Some self
     ∧ dom (slugs self) = registered (__init__ name_dict) cs
     ∧ (∀ n p r, Register n p r ∈ cs → ∃ slug, get_slug self n = Returns slug))
  ∧ (∀ a b pa ra pb rb, a ≠ b → repr a = repr b →
       ∃ self, run slugify (__init__ None) [Register a pa ra; Register b pb rb]
               = Some self
         ∧ is_Some (slugs self !! a) ∧ is_Some (papers self !! b)
         ∧ slugs self !! b = None ∧ get_slug self b = Raises (KeyError b))
  ∧ (let a := PersonName.__init__ "a ||" "b" "" in
     let b := PersonName.__init__ "a" "|| b" "" in
     a ≠ b ∧ repr a = repr b).
Proof.
  split; [|split; [apply shared_repr_no_slug|done]].
  intros Hsep. destruct (run_total (__init__ name_dict) cs) as [self Hrun].
  exists self. split; [done|].
  pose proof (run_variants _ _ _ Hrun) as Hv.
  apply inv_reachable in Hrun as [_ _ Hreg _ _ _ Hnames Hin].
  assert (dom (slugs self) = registered (__init__ name_dict) cs) as Hdom.
  { apply set_eq. intros k. rewrite elem_of_dom. split; [apply Hreg|].
    intros Hk. destruct (Hin k Hk) as [[n0 Hn0] _].
    destruct (Hnames _ _ Hn0) as (Hrepr & HR & Hslug).
    by rewrite <-(NameFacts.repr_inj n0 k) by eauto using all_separable_spec. }
  split; [done|]. intros n p r Hn.
  apply (registered_elem (__init__ name_dict)) in Hn.
  rewrite <-Hdom, elem_of_dom in Hn.
  rewrite <-(canonical_variants self) in Hn by done.
  destruct Hn as [slug Hslug]. exists slug. unfold get_slug. by rewrite Hslug.
Qed.

End Runs.

(** ** Names that share a base slug *)

Section Collisions.
Variable slugify : string → string.
Variable base : string.
Hypothesis base_nonempty : base ≠ "".







Variable init : PersonIndex.



End Collisions.

Section SlugCollisions.
Variable slugify : string → string.


End SlugCollisions.

(** ** Look-ups and canonical forms *)

Section Lookups.



Lemma roles_lookup_touch role role' (d : Roles.t) :
  Roles.getitem role' (Roles.touch role d) = Roles.getitem role' d.
Proof.
  unfold Roles.getitem, Roles.touch.
  destruct (Roles.lookup role d) eqn:E; [done|].
  induction d as [|[r l] d IH]; simpl in *.
  - by destruct (decide (role = role')).
  - destruct (decide (r = role)); [done|].
    destruct (decide (r = role')); [done|]. by apply IH.
Qed.

Lemma get_papers_state self q role :
  (get_papers self q role).2 =
    set_papers self
      (<[get_canonical_variant self q :=
           match role with
           | Some r =>
               Roles.touch r (default [] (papers self !! get_canonical_variant self q))
           | None => default [] (papers self !! get_canonical_variant self q)
           end]> (papers self)).
Proof. by destruct role. Qed.

Lemma get_coauthors_state self q :
  (get_coauthors self q).2 =
    set_coauthors self
      (<[get_canonical_variant self q :=
           default ∅ (coauthors self !! get_canonical_variant self q)]>
         (coauthors self)).
Proof. done. Qed.




Lemma canonical_fixed self x :
  variants self !! repr x = None → get_canonical_variant self x = x.
Proof. unfold get_canonical_variant. by intros ->. Qed.

(** C5 (amended): when no canonical name of the variant table, read and
    serialized again, is itself listed as a variant, the canonical form of
    a canonical form is that form. *)
Theorem canonical_idempotent self x :
  chain_free (variants self) →
  get_canonical_variant self (get_canonical_variant self x)
  = get_canonical_variant self x.
Proof.
  intros Hfree. destruct (variants self !! repr x) as [canonical|] eqn:E.
  - assert (get_canonical_variant self x = PersonName.from_repr canonical) as ->
      by (unfold get_canonical_variant; by rewrite E).
    apply canonical_fixed. by eapply Hfree.
  - rewrite (canonical_fixed self x E). by apply canonical_fixed.
Qed.

(** C5 on a sample: a table with one canonical name. *)
Lemma canonical_idempotent_witness :
  let self := __init__ (Some [("Jane || Smith", ["J. || Smith"; "Jane A. || Smith"])]) in
  let x := mkName "J." "Smith" "" in
  get_canonical_variant self (get_canonical_variant self x)
  = get_canonical_variant self x.
Proof.
  intros self x. apply (canonical_idempotent self x).
  unfold self, __init__, load_variant_list; simpl.
  repeat (apply map_Forall_insert_2; [reflexivity|]).
  apply map_Forall_empty.
Defined.

(** C5 fails as stated: with the table that lists "A || B" as a variant of
    "C || D" and "C || D" as a variant of "E || F", the canonical form of
    (A, B) is (C, D), whose canonical form is (E, F). *)
Lemma canonical_idempotent_counterexample :
  let self := __init__ (Some [("C || D", ["A || B"]); ("E || F", ["C || D"])]) in
  let x := mkName "A" "B" "" in
  get_canonical_variant self x = mkName "C" "D" ""
  ∧ get_canonical_variant self (get_canonical_variant self x) = mkName "E" "F" ""
  ∧ get_canonical_variant self (get_canonical_variant self x)
    ≠ get_canonical_variant self x.
Proof. intros self x. by vm_compute. Qed.

End Lookups.

(** ** The properties on sample names *)

Section Samples.
Import Sample.

(** C6 on a sample: [bob] was not registered. *)
Lemma unknown_lookups_witness :
  ∃ self, run slugify (__init__ None) [Register jane paper1 "author"] = Some self
    ∧ (get_papers self bob None).1 = []
    ∧ (∀ role, (get_papers self bob (Some role)).1 = [])
    ∧ (get_coauthors self bob).1 = ∅
    ∧ get_slug self bob = Raises (KeyError (get_canonical_variant self bob)).
Proof.
  apply (unknown_lookups slugify None [Register jane paper1 "author"] bob).
  vm_compute. set_solver.
Defined.

(** C10 on a sample: two separable names. *)
Lemma registered_slugs_witness :
  ∃ self, run slugify (__init__ None)
            [Register jane paper1 "author"; Register bob paper1 "author"] = Some self
    ∧ dom (slugs self)
      = registered (__init__ None)
          [Register jane paper1 "author"; Register bob paper1 "author"]
    ∧ (∀ n p r,
         Register n p r ∈ [Register jane paper1 "author"; Register bob paper1 "author"] →
         ∃ slug, get_slug self n = Returns slug).
Proof.
  destruct (registered_slugs slugify None
              [Register jane paper1 "author"; Register bob paper1 "author"]) as [H _].
  apply H. reflexivity.
Defined.

(** C10 fails as stated: no part of ("a ||", "b", "") and of
    ("a", "|| b", "") holds the separator, both are serialized as
    "a || || b", and the second to be registered has no slug. *)
Lemma registered_slugs_counterexample :
  let a := PersonName.__init__ "a ||" "b" "" in
  let b := PersonName.__init__ "a" "|| b" "" in
  PersonName.no_separator a = true ∧ PersonName.no_separator b = true
  ∧ a ≠ b ∧ repr a = repr b
  ∧ ∃ self, run slugify (__init__ None)
              [Register a paper2 "author"; Register b paper2 "author"] = Some self
      ∧ is_Some (papers self !! b) ∧ slugs self !! b = None
      ∧ get_slug self b = Raises (KeyError b).
Proof.
  intros a b. do 4 (split; [done|]).
  destruct (shared_repr_no_slug slugify a b paper2 "author" paper2 "author")
    as (self & ? & _ & ? & ? & ?); [done..|].
  by exists self.
Qed.



End Samples.

(** * Further properties *)

(** ** Names: construction, display form, equality *)

Module StripFacts.
Import Str StrFacts.

Lemma lstrip_head s c s' : lstrip s = String c s' → isspace c = false.
Proof.
  induction s as [|d s IH]; [done|]. cbn [lstrip].
  destruct (isspace d) eqn:E; [done|]. by intros [= <- <-].
Qed.

Lemma lstrip_cons c s : isspace c = false → lstrip (String c s) = String c s.
Proof. intros E. cbn [lstrip]. by rewrite E. Qed.

Lemma rstrip_strip s : rstrip (strip s) = strip s.
Proof. unfold strip. apply rstrip_lstrip, rstrip_fixed. Qed.

Lemma lstrip_strip s : lstrip (strip s) = strip s.
Proof. unfold strip. apply lstrip_fixed. Qed.

Lemma rstrip_app a b : rstrip b ≠ "" → rstrip (a +:+ b) = a +:+ rstrip b.
Proof.
  intros Hb. induction a as [|c a IH]; [done|].
  rewrite !app_cons. cbn [rstrip]. rewrite IH.
  destruct (a +:+ rstrip b) eqn:E; [|done].
  destruct a; [done|]. by rewrite app_cons in E.
Qed.

Lemma rstrip_app_blank a b : rstrip b = "" → rstrip (a +:+ b) = rstrip a.
Proof.
  intros Hb. induction a as [|c a IH]; [done|].
  rewrite app_cons. cbn [rstrip]. by rewrite IH.
Qed.

Lemma rstrip_app_fixed a b :
  rstrip a = a → rstrip b = b → rstrip (a +:+ b) = a +:+ b.
Proof.
  intros Ha Hb. destruct (decide (b = "")) as [->|Hne].
  - by rewrite app_empty_r.
  - rewrite rstrip_app by congruence. by rewrite Hb.
Qed.

Lemma lstrip_app_head a b :
  a ≠ "" → lstrip a = a → lstrip (a +:+ b) = a +:+ b.
Proof.
  intros Hne Ha. destruct a as [|c a]; [done|].
  rewrite app_cons. apply lstrip_cons. by eapply lstrip_head.
Qed.

Lemma lstrip_app_fixed a b :
  lstrip a = a → lstrip b = b → lstrip (a +:+ b) = a +:+ b.
Proof.
  intros Ha Hb. destruct (decide (a = "")) as [->|Hne]; [done|].
  by apply lstrip_app_head.
Qed.

(** A part of a string holds no more separators than the string. *)
Lemma startswith_trans a b c :
  startswith a b = true → startswith b c = true → startswith a c = true.
Proof.
  revert b c. induction a as [|x a IH]; intros [|y b] [|z c]; try done.
  intros [-> Hab]%startswith_cons [-> Hbc]%startswith_cons.
  apply startswith_cons. eauto.
Qed.

Lemma contains_prefix p a b :
  startswith a b = true → contains p b = false → contains p a = false.
Proof.
  revert b. induction a as [|x a IH]; intros b Hab Hb.
  - destruct p; [by destruct b|done].
  - destruct b as [|y b]; [done|].
    apply startswith_cons in Hab as [-> Hab].
    apply contains_cons in Hb as [Hs Hb]. cbn [contains].
    rewrite (IH b) by done. rewrite orb_false_r.
    destruct (startswith p (String y a)) eqn:E; [|done].
    rewrite <-Hs. symmetry. eapply startswith_trans; [done|].
    by apply startswith_cons.
Qed.

Lemma startswith_rstrip s : startswith (rstrip s) s = true.
Proof.
  induction s as [|c s IH]; [done|]. cbn [rstrip].
  destruct (rstrip s) as [|d r] eqn:E.
  - by destruct (isspace c); [|apply startswith_cons].
  - by apply startswith_cons.
Qed.

Lemma contains_lstrip p s : contains p s = false → contains p (lstrip s) = false.
Proof.
  induction s as [|c s IH]; [done|]. intros H. cbn [lstrip].
  destruct (isspace c); [|done]. apply contains_cons in H as [_ H]. by apply IH.
Qed.

Lemma contains_strip p s : contains p s = false → contains p (strip s) = false.
Proof.
  intros H. apply contains_lstrip. eapply contains_prefix; [|done].
  apply startswith_rstrip.
Qed.

(** The first part [split] finds begins the string, and no part holds the
    separator. *)
Lemma split_go_head sep s :
  ∃ p ps, split_go sep 0 s = p :: ps ∧ startswith p s = true.
Proof.
  induction s as [|c s (p & ps & IH & Hp)]; [by exists "", []|].
  cbn [split_go]. destruct (startswith sep (String c s)); [by eexists _, _|].
  rewrite IH. exists (String c p), ps. split; [done|]. by apply startswith_cons.
Qed.

Lemma split_go_parts sep skip s :
  sep ≠ "" → Forall (λ p, contains sep p = false) (split_go sep skip s).
Proof.
  intros Hsep. assert (contains sep "" = false) as Hnil by by destruct sep.
  revert skip. induction s as [|c s IH]; intros skip.
  - by apply Forall_singleton.
  - cbn [split_go]. destruct skip as [|k]; [|apply IH].
    destruct (startswith sep (String c s)) eqn:E; [by apply Forall_cons|].
    specialize (IH 0%nat).
    destruct (split_go_head sep s) as (p & ps & Hs & Hp). rewrite Hs in *.
    apply Forall_cons in IH as [Hc Hps]. apply Forall_cons. split; [|done].
    cbn [contains]. rewrite Hc, orb_false_r.
    destruct (startswith sep (String c p)) eqn:E'; [|done].
    rewrite <-E. symmetry. eapply startswith_trans; [done|].
    by apply startswith_cons.
Qed.

End StripFacts.

Section MoreNames.
Import Str StrFacts StripFacts PersonName NameFacts.

(** X1: [from_element] takes each part from the last element with its tag,
    reads an element without text as the empty string, passes over elements
    with other tags, and strips the parts. *)
Theorem from_element_fields (person_element : list Element) :
  from_element person_element =
    __init__ (field "first" person_element) (field "last" person_element)
             (field "jr" person_element).
Proof.
  unfold from_element.
  assert (fold_left read_element person_element ("", "", "")
          = (field "first" person_element, field "last" person_element,
             field "jr" person_element)) as ->; [|done].
  induction person_element as [|e l IH] using rev_ind; [done|].
  rewrite fold_left_app, IH. unfold field.
  rewrite !filter_app, !filter_cons, filter_nil. cbn [fold_left].
  unfold read_element.
  repeat case_decide; rewrite ?filter_nil, ?app_nil_r, ?last_snoc; try done;
    congruence.
Qed.

(** X2: building a name again from the parts of a built name gives the same
    name: the constructor strips, and stripping twice is stripping once. *)
Theorem init_idempotent (f l j : string) :
  let n := __init__ f l j in
  __init__ (first n) (last n) (jr n) = n
  ∧ strip (first n) = first n ∧ strip (last n) = last n ∧ strip (jr n) = jr n.
Proof. intros n. split; [apply init_fixed|]. simpl. by rewrite !strip_fixed. Qed.


(** X4: the display form of a built name is its first name, a blank, and the
    last name with the suffix right behind it; without first name it is the
    last name and suffix alone, and without these the first name alone. *)
Theorem full_display (f l j : string) :
  let n := __init__ f l j in
  full n =
    if decide (first n = "") then last n +:+ jr n
    else if decide (last n +:+ jr n = "") then first n
    else first n +:+ " " +:+ last n +:+ jr n.
Proof.
  intros n. unfold full, n, __init__. cbn [first last jr format].
  rewrite app_empty_r.
  set (a := strip f). set (b := strip l +:+ strip j).
  assert (rstrip a = a ∧ lstrip a = a) as [Hra Hla]
    by (split; [apply rstrip_strip|apply lstrip_strip]).
  assert (rstrip b = b ∧ lstrip b = b) as [Hrb Hlb].
  { split; [apply rstrip_app_fixed|apply lstrip_app_fixed];
      apply rstrip_strip || apply lstrip_strip. }
  change (strip (a +:+ " " +:+ b) =
          if decide (a = "") then b
          else if decide (b = "") then a else a +:+ " " +:+ b).
  unfold strip. destruct (decide (b = "")) as [Hb|Hb].
  - rewrite Hb, rstrip_app_blank, Hra, Hla by done.
    by destruct (decide (a = "")) as [->|].
  - assert (rstrip (" " +:+ b) = " " +:+ b) as Hsb.
    { rewrite rstrip_app by congruence. by rewrite Hrb. }
    rewrite rstrip_app, Hsb by (by rewrite Hsb).
    destruct (decide (a = "")) as [->|Ha]; [exact Hlb|].
    by apply lstrip_app_head.
Qed.

(** X5: no part of a name read by [from_repr] holds the separator, whatever
    the string; and the name is one the constructor leaves as it is. *)
Theorem from_repr_no_separator (s : string) :
  no_separator (from_repr s) = true
  ∧ __init__ (first (from_repr s)) (last (from_repr s)) (jr (from_repr s))
    = from_repr s.
Proof.
  split; [|apply init_fixed].
  pose proof (split_go_parts " || " 0 s) as Hparts.
  unfold from_repr, split. set (ps := split_go " || " 0 s) in *.
  assert (Forall (λ p, contains " || " p = false) ps) as Hall by by apply Hparts.
  assert (∀ i, contains " || " (default "" (ps !! i)) = false) as Hi.
  { intros i. destruct (ps !! i) as [p|] eqn:E; [|done].
    by eapply (Forall_lookup_1 _ _ _ _ Hall). }
  assert (∀ i, contains " || " (part ps i) = false) as Hpart.
  { intros i. unfold part. by destruct (decide _). }
  unfold no_separator, final_part, __init__. cbn [first last jr].
  by rewrite !contains_strip.
Qed.

End MoreNames.

(** ** The index: loading variants, look-ups, venues *)

Section MoreLookups.

Lemma add_variants_lookup c vs self v :
  variants (fold_left
              (λ self variant, set_variants self (<[variant:=c]> (variants self)))
              vs self) !! v
  = if decide (v ∈ vs) then Some c else variants self !! v.
Proof.
  revert self. induction vs as [|x vs IH]; intros self.
  - cbn [fold_left]. rewrite decide_False; [done|]. by intros ?%elem_of_nil.
  - cbn [fold_left]. rewrite IH. cbn [set_variants variants].
    destruct (decide (v ∈ vs)) as [Hin|Hout].
    + rewrite decide_True; [done|]. apply elem_of_cons. by right.
    + destruct (decide (x = v)) as [->|Hne].
      * rewrite lookup_insert_eq, decide_True; [done|]. apply elem_of_cons. by left.
      * rewrite lookup_insert_ne by done. rewrite decide_False; [done|].
        by intros [?|?]%elem_of_cons.
Qed.

Lemma load_variant_list_cons self c vs d :
  load_variant_list self ((c, vs) :: d) =
    load_variant_list
      (fold_left (λ self variant, set_variants self (<[variant:=c]> (variants self)))
                 vs self) d.
Proof. done. Qed.

Lemma load_variant_list_unlisted self d v :
  Forall (λ e : string * list string, v ∉ e.2) d →
  variants (load_variant_list self d) !! v = variants self !! v.
Proof.
  revert self. induction d as [|[c vs] d IH]; intros self Hd; [done|].
  apply Forall_cons in Hd as [Hv Hd]. simpl in Hv.
  rewrite load_variant_list_cons, IH, add_variants_lookup by done.
  by rewrite decide_False.
Qed.

Lemma load_variant_list_app self d1 d2 :
  load_variant_list self (d1 ++ d2) = load_variant_list (load_variant_list self d1) d2.
Proof. unfold load_variant_list. apply fold_left_app. Qed.

(** X6: after the variant list is loaded a variant stands for the canonical
    name of the last entry that lists it, and a string that no entry lists
    is looked up as before.  Loading changes no other field of the index. *)
Theorem load_variant_list_last self d1 c vs d2 v :
  (v ∈ vs → Forall (λ e : string * list string, v ∉ e.2) d2 →
   variants (load_variant_list self (d1 ++ (c, vs) :: d2)) !! v = Some c)
  ∧ (Forall (λ e : string * list string, v ∉ e.2) d2 →
     variants (load_variant_list self d2) !! v = variants self !! v)
  ∧ (let self' := load_variant_list self d2 in
     names self' = names self ∧ _all_slugs self' = _all_slugs self
     ∧ slugs self' = slugs self ∧ coauthors self' = coauthors self
     ∧ papers self' = papers self).
Proof.
  split; [|split; [apply load_variant_list_unlisted|apply load_variant_list_frame]].
  intros Hv Hd2.
  rewrite load_variant_list_app, load_variant_list_cons.
  rewrite load_variant_list_unlisted, add_variants_lookup by done.
  by rewrite decide_True.
Qed.

(** X6 on a sample: "J. || Smith" is listed twice. *)
Lemma load_variant_list_last_witness :
  variants (__init__ (Some [("Jane || Smith", ["J. || Smith"; "Jane A. || Smith"]);
                            ("John || Smith", ["J. || Smith"]);
                            ("Ann || Lee", ["A. || Lee"])]))
    !! "J. || Smith" = Some "John || Smith".
Proof.
  apply (load_variant_list_last (mkIndex ∅ ∅ {[ "" ]} ∅ ∅ ∅)
           [("Jane || Smith", ["J. || Smith"; "Jane A. || Smith"])]
           "John || Smith" ["J. || Smith"] [("Ann || Lee", ["A. || Lee"])]
           "J. || Smith").
  - set_solver.
  - repeat constructor. set_solver.
Defined.

Lemma touch_touch role (d : Roles.t) :
  Roles.touch role (Roles.touch role d) = Roles.touch role d.
Proof.
  unfold Roles.touch. destruct (Roles.lookup role d) as [l|] eqn:E.
  - by rewrite E.
  - assert (Roles.lookup role (d ++ [(role, [])]) = Some []) as ->; [|done].
    induction d as [|[r l] d IH]; simpl in *.
    + by rewrite decide_True.
    + destruct (decide (r = role)); [done|]. by apply IH.
Qed.

Lemma get_venues_pair self vidx q :
  get_venues self vidx q =
    (fold_left (λ venues paper, fold_left count (vidx paper) venues)
               (get_papers self q None).1 ∅,
     (get_papers self q None).2).
Proof. unfold get_venues. by destruct (get_papers self q None). Qed.

(** X7: a look-up made a second time returns what it returned the first
    time and leaves the index as the first left it. *)
Theorem lookups_repeat self q role vidx :
  get_papers (get_papers self q role).2 q role
  = ((get_papers self q role).1, (get_papers self q role).2)
  ∧ get_coauthors (get_coauthors self q).2 q
    = ((get_coauthors self q).1, (get_coauthors self q).2)
  ∧ get_venues (get_venues self vidx q).2 vidx q
    = ((get_venues self vidx q).1, (get_venues self vidx q).2).
Proof.
  assert (∀ r, get_papers (get_papers self q r).2 q r
               = ((get_papers self q r).1, (get_papers self q r).2)) as Hpap.
  { intros r. unfold get_papers. cbv zeta.
    set (c := get_canonical_variant self q).
    destruct r as [r|]; cbn [fst snd].
    - replace (get_canonical_variant (set_papers self _) q) with c by done.
      cbn [papers set_papers]. rewrite lookup_insert_eq. cbn [default from_option id].
      by rewrite touch_touch, insert_insert_eq.
    - replace (get_canonical_variant (set_papers self _) q) with c by done.
      cbn [papers set_papers]. rewrite lookup_insert_eq. cbn [default from_option id].
      by rewrite insert_insert_eq. }
  split; [apply Hpap|]. split.
  - unfold get_coauthors. cbv zeta.
    set (c := get_canonical_variant self q). cbn [fst snd].
    replace (get_canonical_variant (set_coauthors self _) q) with c by done.
    cbn [coauthors set_coauthors]. rewrite lookup_insert_eq. cbn [default from_option id].
    by rewrite insert_insert_eq.
  - rewrite (get_venues_pair self). cbn [fst snd].
    rewrite get_venues_pair, Hpap. done.
Qed.

Lemma fold_count_lookup (l : list string) (c : gmap string Z) v :
  default 0%Z (fold_left count l c !! v)
  = (default 0 (c !! v) + Z.of_nat (length (filter (λ x, x = v) l)))%Z.
Proof.
  revert c. induction l as [|x l IH]; intros c.
  - rewrite filter_nil. cbn [fold_left length]. lia.
  - cbn [fold_left]. rewrite IH, filter_cons. unfold count.
    destruct (decide (x = v)) as [->|Hne].
    + rewrite lookup_insert_eq. cbn [default from_option id length]. lia.
    + rewrite lookup_insert_ne by done. lia.
Qed.

Lemma fold_count_None (l : list string) (c : gmap string Z) v :
  fold_left count l c !! v = None ↔ c !! v = None ∧ v ∉ l.
Proof.
  revert c. induction l as [|x l IH]; intros c.
  - cbn. split; [intros ?; split; [done|by intros ?%elem_of_nil]|by intros [? _]].
  - cbn [fold_left]. rewrite IH, not_elem_of_cons. unfold count.
    destruct (decide (x = v)) as [->|Hne].
    + rewrite lookup_insert_eq. naive_solver.
    + rewrite lookup_insert_ne by done. naive_solver.
Qed.

(** X8: [get_venues] counts a venue once for every time the venue index
    gives it for a paper of the name, a paper registered twice counting
    twice; a venue no paper of the name has is not in the result. *)
Theorem get_venues_count self vidx q v :
  let venues := concat (vidx <$> (get_papers self q None).1) in
  default 0%Z ((get_venues self vidx q).1 !! v)
  = Z.of_nat (length (filter (λ x, x = v) venues))
  ∧ ((get_venues self vidx q).1 !! v = None ↔ v ∉ venues).
Proof.
  intros venues. unfold venues. rewrite get_venues_pair. cbn [fst].
  generalize (get_papers self q None).1. intros ps.
  assert (∀ c : gmap string Z,
    default 0%Z (fold_left (λ venues paper, fold_left count (vidx paper) venues) ps c
                 !! v)
    = (default 0 (c !! v)
       + Z.of_nat (length (filter (λ x, x = v) (concat (vidx <$> ps)))))%Z
    ∧ (fold_left (λ venues paper, fold_left count (vidx paper) venues) ps c !! v = None
       ↔ c !! v = None ∧ v ∉ concat (vidx <$> ps))) as H.
  { induction ps as [|p ps IH]; intros c.
    - cbn. split; [lia|]. split; [intros ?; split; [done|by intros ?%elem_of_nil]|].
      by intros [? _].
    - cbn [fold_left]. rewrite fmap_cons. cbn [concat].
      destruct (IH (fold_left count (vidx p) c)) as [-> ->].
      rewrite fold_count_lookup, fold_count_None, filter_app, length_app,
        not_elem_of_app.
      split; [lia|tauto]. }
  destruct (H ∅) as [-> ->]. rewrite lookup_empty. split; [cbn; lia|tauto].
Qed.

End MoreLookups.

(** ** The index: registration and what accumulates *)

Section MoreRegister.
Variable slugify : string → string.

(** X9: when the serialized form of the canonical name is new to the index,
    [register] gives the name the first of the slugs base, base1, base2, ...
    that is not in use, and reserves it; when the form is known it changes
    neither [names] nor [slugs] nor the slugs in use. *)
Theorem register_new_slug self n p r :
  let c := get_canonical_variant self n in
  let base := slugify (repr c) in
  ∃ x self', register slugify self n p r = Some (x, self')
    ∧ x = repr c
    ∧ (repr c ∉ dom (names self) →
       ∃ slug, slugs self' = <[c := slug]> (slugs self)
         ∧ names self' = <[repr c := c]> (names self)
         ∧ _all_slugs self' = {[ slug ]} ∪ _all_slugs self
         ∧ (slug ∉ _all_slugs self)
         ∧ (slug = base
            ∨ base ∈ _all_slugs self
              ∧ ∃ j, (0 < j)%N ∧ slug = base +:+ pretty j
                     ∧ ∀ j', (0 < j' < j)%N → base +:+ pretty j' ∈ _all_slugs self))
    ∧ (repr c ∈ dom (names self) →
       names self' = names self ∧ slugs self' = slugs self
       ∧ _all_slugs self' = _all_slugs self).
Proof.
  intros c base. destruct (register_total slugify self n p r) as [[x self'] Hreg].
  exists x, self'. split; [done|].
  apply register_spec in Hreg as (-> & _ & _ & _ & _ & Hin & Hout).
  fold c in Hin, Hout. split; [done|]. split; [|done].
  intros Hnew. destruct (Hout Hnew) as (slug & Hloop & Hn & Hs & Hu).
  exists slug. apply slug_loop_Some in Hloop as [Hfresh Hcase]. by repeat split.
Qed.

(** X10: [register] touches only the entries of the name it registers: the
    variant table stays as it is, and so do the papers, the co-author
    counter and the slug of every other name and every other key of
    [names]. *)
Theorem register_frame self n p r :
  let c := get_canonical_variant self n in
  ∃ x self', register slugify self n p r = Some (x, self')
    ∧ variants self' = variants self
    ∧ (∀ k, k ≠ c → papers self' !! k = papers self !! k
                    ∧ coauthors self' !! k = coauthors self !! k
                    ∧ slugs self' !! k = slugs self !! k)
    ∧ (∀ key, key ≠ repr c → names self' !! key = names self !! key)
    ∧ is_Some (papers self' !! c) ∧ is_Some (names self' !! repr c).
Proof.
  intros c. destruct (register_total slugify self n p r) as [[x self'] Hreg].
  exists x, self'. split; [done|].
  apply register_spec in Hreg as (_ & Hv & Hp & Hco & _ & Hin & Hout).
  fold c in Hp, Hco, Hin, Hout. split; [done|].
  destruct (decide (repr c ∈ dom (names self))) as [Hdom|Hdom].
  - destruct (Hin Hdom) as (-> & -> & _). apply elem_of_dom in Hdom.
    repeat split; try done.
    + by rewrite Hp, lookup_insert_ne.
    + by apply Hco.
    + rewrite Hp, lookup_insert_eq. by eexists.
  - destruct (Hout Hdom) as (slug & _ & -> & -> & _).
    repeat split.
    + by rewrite Hp, lookup_insert_ne.
    + by apply Hco.
    + by rewrite lookup_insert_ne.
    + intros key Hkey. by rewrite lookup_insert_ne.
    + rewrite Hp, lookup_insert_eq. by eexists.
    + rewrite lookup_insert_eq. by eexists.
Qed.

(** A call on an index as the calls leave it gives no name another slug and
    takes none away. *)
Lemma step_grows R self c self' :
  index_inv R self → step slugify self c = Some self' →
  slugs self ⊆ slugs self' ∧ names self ⊆ names self'
  ∧ (_all_slugs self = {[ "" ]} ∪ map_img (slugs self) →
     _all_slugs self' = {[ "" ]} ∪ map_img (slugs self'))
  ∧ (size (names self') ≤ S (size (names self)))%nat.
Proof.
  intros [_ _ Hreg _ _ _ _ Hin] Hstep.
  assert (names self' = names self ∧ slugs self' = slugs self
          ∧ _all_slugs self' = _all_slugs self
          → slugs self ⊆ slugs self' ∧ names self ⊆ names self'
            ∧ (_all_slugs self = {[ "" ]} ∪ map_img (slugs self) →
               _all_slugs self' = {[ "" ]} ∪ map_img (slugs self'))
            ∧ (size (names self') ≤ S (size (names self)))%nat) as Hsame.
  { intros (-> & -> & ->). repeat split; try done. lia. }
  destruct c as [n p r|n|n role|n|vidx n]; cbn [step] in Hstep.
  - destruct (register slugify self n p r) as [[x s1]|] eqn:E; [|done].
    revert Hstep. intros [= <-].
    apply register_spec in E as (_ & _ & _ & _ & _ & Hknown & Hnew).
    set (k := get_canonical_variant self n) in *.
    destruct (decide (repr k ∈ dom (names self))) as [Hdom|Hdom];
      [by apply Hsame, Hknown|].
    destruct (Hnew Hdom) as (slug & _ & -> & -> & ->).
    assert (slugs self !! k = None) as Hk.
    { destruct (slugs self !! k) as [s0|] eqn:E; [|done].
      exfalso. apply Hdom, elem_of_dom, Hin, Hreg. by eexists. }
    apply not_elem_of_dom in Hdom.
    split; [by apply insert_subseteq|]. split; [by apply insert_subseteq|].
    split.
    + intros ->. rewrite map_img_insert_notin_L by done. set_solver.
    + rewrite map_size_insert_None by done. lia.
  - revert Hstep. intros [= <-]. by apply Hsame.
  - rewrite get_papers_state in Hstep. revert Hstep. intros [= <-].
    apply Hsame. by repeat split.
  - rewrite get_coauthors_state in Hstep. revert Hstep. intros [= <-].
    apply Hsame. by repeat split.
  - rewrite get_venues_state, get_papers_state in Hstep. revert Hstep.
    intros [= <-]. apply Hsame. by repeat split.
Qed.

Lemma run_grows R self cs self' :
  index_inv R self → run slugify self cs = Some self' →
  slugs self ⊆ slugs self' ∧ names self ⊆ names self'
  ∧ (_all_slugs self = {[ "" ]} ∪ map_img (slugs self) →
     _all_slugs self' = {[ "" ]} ∪ map_img (slugs self'))
  ∧ (size (names self') ≤ size (names self) + length cs)%nat.
Proof.
  revert R self. induction cs as [|c cs IH]; intros R self HI; cbn [run].
  - intros [= <-]. repeat split; try done. lia.
  - destruct (step slugify self c) as [s1|] eqn:E; [|done].
    cbn [mbind option_bind]. intros Hrun.
    destruct (step_grows R self c s1 HI E) as (Hs & Hn & Hu & Hlen).
    apply (inv_step slugify R) in E; [|done].
    destruct (IH _ _ E Hrun) as (Hs' & Hn' & Hu' & Hlen').
    split; [by etrans|]. split; [by etrans|]. split; [auto|].
    cbn [length]. lia.
Qed.

(** X11: over any further calls a name keeps the slug it has and [names]
    keeps its entries: what [get_slug] returns for a name it returns ever
    after. *)
Theorem slugs_stable name_dict cs1 cs2 :
  ∃ s1 s2, run slugify (__init__ name_dict) cs1 = Some s1
    ∧ run slugify s1 cs2 = Some s2
    ∧ slugs s1 ⊆ slugs s2 ∧ names s1 ⊆ names s2
    ∧ (∀ q slug, get_slug s1 q = Returns slug → get_slug s2 q = Returns slug).
Proof.
  destruct (run_total slugify (__init__ name_dict) cs1) as [s1 H1].
  destruct (run_total slugify s1 cs2) as [s2 H2].
  exists s1, s2. split; [done|]. split; [done|].
  pose proof (inv_reachable slugify _ _ _ H1) as HI.
  destruct (run_grows _ _ _ _ HI H2) as (Hs & Hn & _ & _).
  split; [done|]. split; [done|].
  intros q slug. unfold get_slug.
  rewrite (canonical_variants s2 s1) by by eapply run_variants.
  destruct (slugs s1 !! get_canonical_variant s1 q) as [s|] eqn:E; [|done].
  intros [= ->]. by rewrite (lookup_weaken _ _ _ _ E Hs).
Qed.

(** X12: after any sequence of calls on a new index the slugs in use are
    the empty string and the slugs of the names, no more. *)
Theorem slugs_reserved name_dict cs :
  ∃ self, run slugify (__init__ name_dict) cs = Some self
    ∧ _all_slugs self = {[ "" ]} ∪ map_img (slugs self).
Proof.
  destruct (run_total slugify (__init__ name_dict) cs) as [self Hrun].
  exists self. split; [done|].
  destruct (run_grows ∅ _ _ _ (init_inv name_dict) Hrun) as (_ & _ & Hu & _).
  apply Hu. destruct name_dict as [d|]; unfold __init__.
  - destruct (load_variant_list_frame (mkIndex ∅ ∅ {[ "" ]} ∅ ∅ ∅) d)
      as (_ & -> & -> & _).
    cbn. rewrite map_img_empty_L. set_solver.
  - cbn. rewrite map_img_empty_L. set_solver.
Qed.

(** X13: the keys of [items] are the serialized forms of the registered
    canonical names, each value is serialized as its key, and the length
    of the index is the number of these forms, at most the number of
    calls. *)
Theorem items_registered name_dict cs :
  ∃ self, run slugify (__init__ name_dict) cs = Some self
    ∧ dom (items self) = set_map repr (registered (__init__ name_dict) cs)
    ∧ (∀ key n, items self !! key = Some n →
                repr n = key ∧ n ∈ registered (__init__ name_dict) cs)
    ∧ __len__ self
      = size (set_map repr (registered (__init__ name_dict) cs) : gset string)
    ∧ (__len__ self ≤ length cs)%nat.
Proof.
  destruct (run_total slugify (__init__ name_dict) cs) as [self Hrun].
  exists self. split; [done|].
  destruct (run_grows ∅ _ _ _ (init_inv name_dict) Hrun) as (_ & _ & _ & Hlen).
  apply inv_reachable in Hrun as [_ _ _ _ _ _ Hnames Hin].
  assert (dom (items self) = set_map repr (registered (__init__ name_dict) cs))
    as Hdom.
  { apply set_eq. intros key. unfold items. rewrite elem_of_dom, elem_of_map.
    split.
    - intros [n (Hr & HR & _)%Hnames]. by exists n.
    - intros (k & -> & Hk). by apply Hin. }
  split; [done|]. split; [intros key n (? & ? & _)%Hnames; done|].
  split; [by rewrite <-Hdom, size_dom|].
  unfold __len__.
  assert (size (names (__init__ name_dict)) = 0%nat) as Hzero.
  { destruct name_dict as [d|]; unfold __init__; [|done].
    by destruct (load_variant_list_frame (mkIndex ∅ ∅ {[ "" ]} ∅ ∅ ∅) d) as (-> & _). }
  lia.
Qed.

End MoreRegister.

(** ** The index: papers and co-authors over a sequence of calls *)

Section Accumulation.
Variable slugify : string → string.

Lemma roles_lookup_None role (d : Roles.t) :
  Roles.lookup role d = None ↔ role ∉ d.*1.
Proof.
  induction d as [|[r l] d IH]; cbn; [by split; [intros _ ?%elem_of_nil|]|].
  rewrite not_elem_of_cons. destruct (decide (r = role)); naive_solver.
Qed.

Lemma touch_keys role (d : Roles.t) :
  NoDup d.*1 → NoDup (Roles.touch role d).*1 ∧ role ∈ (Roles.touch role d).*1.
Proof.
  intros Hd. unfold Roles.touch. destruct (Roles.lookup role d) as [l|] eqn:E.
  - split; [done|]. destruct (decide (role ∈ d.*1)) as [|Hn]; [done|].
    apply roles_lookup_None in Hn. congruence.
  - apply roles_lookup_None in E. rewrite fmap_app. cbn. split.
    + apply NoDup_app. split; [done|]. split; [|apply NoDup_singleton].
      intros x Hx ->%list_elem_of_singleton. done.
    + apply elem_of_app. right. by apply list_elem_of_singleton.
Qed.

Lemma append_keys role x (d : Roles.t) :
  (Roles.append role x d).*1 = (Roles.touch role d).*1.
Proof.
  unfold Roles.append. rewrite <-list_fmap_compose. apply list_fmap_ext.
  intros i [r l] _. cbn. by destruct (decide (r = role)).
Qed.

Lemma all_values_touch role (d : Roles.t) :
  Roles.all_values (Roles.touch role d) = Roles.all_values d.
Proof.
  unfold Roles.touch, Roles.all_values. destruct (Roles.lookup role d); [done|].
  rewrite fmap_app, concat_app. cbn. by rewrite app_nil_r.
Qed.

Lemma all_values_add role x (d : Roles.t) :
  NoDup d.*1 → role ∈ d.*1 →
  Roles.all_values
    ((λ e : string * list string,
        if decide (e.1 = role) then (e.1, e.2 ++ [x]) else e) <$> d)
  ≡ₚ x :: Roles.all_values d.
Proof.
  unfold Roles.all_values. induction d as [|[r l] d IH]; [by intros _ ?%elem_of_nil|].
  rewrite !fmap_cons. cbn [fst snd concat].
  intros [Hr Hd]%NoDup_cons Hin. destruct (decide (r = role)) as [->|Hne].
  - assert ((λ e : string * list string,
               if decide (e.1 = role) then (e.1, e.2 ++ [x]) else e) <$> d = d) as ->.
    { rewrite <-(list_fmap_id d) at 2. apply list_fmap_ext.
      intros i [r' l'] Hi. cbn. destruct (decide (r' = role)) as [->|]; [|done].
      exfalso. apply Hr. apply list_elem_of_fmap. exists (role, l'). split; [done|].
      by eapply list_elem_of_lookup_2. }
    cbn [snd]. rewrite <-app_assoc. cbn. by rewrite <-Permutation_middle.
  - apply elem_of_cons in Hin as [Heq|Hin]; [by cbn in Heq|].
    rewrite (IH Hd Hin). by rewrite <-Permutation_middle.
Qed.

Lemma all_values_append role x (d : Roles.t) :
  NoDup d.*1 → Roles.all_values (Roles.append role x d) ≡ₚ x :: Roles.all_values d.
Proof.
  intros [Hnd Hin]%(touch_keys role). unfold Roles.append.
  by rewrite all_values_add, all_values_touch.
Qed.

Lemma getitem_append role x (d : Roles.t) r :
  Roles.getitem r (Roles.append role x d)
  = Roles.getitem r d ++ (if decide (r = role) then [x] else []).
Proof.
  rewrite <-(roles_lookup_touch role r d). unfold Roles.append.
  assert (r = role → is_Some (Roles.lookup r (Roles.touch role d))) as Hsome.
  { intros ->. unfold Roles.touch.
    destruct (Roles.lookup role d) as [l|] eqn:E; [by rewrite E|].
    induction d as [|[r' l'] d IH]; cbn in *; [by rewrite decide_True|].
    destruct (decide (r' = role)); [done|]. by apply IH. }
  unfold Roles.getitem. revert Hsome. generalize (Roles.touch role d).
  intros d'. induction d' as [|[r' l'] d' IH]; intros Hsome.
  - cbn. destruct (decide (r = role)) as [Hr|]; [|done].
    by destruct (Hsome Hr).
  - rewrite fmap_cons. cbn [Roles.lookup fst snd] in *.
    destruct (decide (r' = role)) as [->|Hne]; cbn [fst snd Roles.lookup].
    + destruct (decide (role = r)) as [<-|Hr].
      * cbn. by rewrite decide_True.
      * apply IH. intros ?. congruence.
    + destruct (decide (r' = r)) as [->|Hr].
      * cbn. by rewrite decide_False, app_nil_r.
      * by apply IH.
Qed.

Lemma papers_of_variants s1 s2 cs k role :
  variants s1 = variants s2 → papers_of s1 cs k role = papers_of s2 cs k role.
Proof.
  intros Hv. induction cs as [|[] cs IH]; cbn; try done.
  by rewrite IH, (canonical_variants s1 s2).
Qed.

Lemma all_papers_of_variants s1 s2 cs k :
  variants s1 = variants s2 → all_papers_of s1 cs k = all_papers_of s2 cs k.
Proof.
  intros Hv. induction cs as [|[] cs IH]; cbn; try done.
  by rewrite IH, (canonical_variants s1 s2).
Qed.

Lemma coauthored_variants s1 s2 cs k a :
  variants s1 = variants s2 → coauthored s1 cs k a = coauthored s2 cs k a.
Proof.
  intros Hv. induction cs as [|[] cs IH]; cbn; try done.
  rewrite IH, (canonical_variants s1 s2) by done.
  by rewrite (list_filter_iff _ (λ b, get_canonical_variant s2 b = a))
    by (intros b; by rewrite (canonical_variants s1 s2)).
Qed.

Lemma papers_of_cons self c cs k role :
  papers_of self (c :: cs) k role
  = papers_of self [c] k role ++ papers_of self cs k role.
Proof. destruct c; cbn; by rewrite ?app_nil_r. Qed.

Lemma all_papers_of_cons self c cs k :
  all_papers_of self (c :: cs) k
  = all_papers_of self [c] k ++ all_papers_of self cs k.
Proof. destruct c; cbn; by rewrite ?app_nil_r. Qed.

Lemma coauthored_cons self c cs k a :
  coauthored self (c :: cs) k a
  = (coauthored self [c] k a + coauthored self cs k a)%Z.
Proof. destruct c; cbn [coauthored]; lia. Qed.

Lemma coauthored_self self cs k : coauthored self cs k k = 0%Z.
Proof.
  induction cs as [|[] cs IH]; cbn [coauthored]; try done.
  rewrite IH, decide_False; [done|]. by intros [_ ?].
Qed.

(** What the index holds for a name after a look-up is what it held. *)
Lemma lookup_keeps (self self' : PersonIndex) c (d' : Roles.t) :
  (self' = set_papers self (<[c := d']> (papers self))
   ∧ (∀ r, Roles.getitem r d' = paper_list self c r)
   ∧ Roles.all_values d' = Roles.all_values (default [] (papers self !! c))
   ∧ (NoDup (default [] (papers self !! c)).*1 → NoDup d'.*1))
  ∨ self' = set_coauthors self
              (<[c := default ∅ (coauthors self !! c)]> (coauthors self)) →
  (tables_nodup self → tables_nodup self')
  ∧ (∀ k role, paper_list self' k role = paper_list self k role)
  ∧ (∀ k, Roles.all_values (default [] (papers self' !! k))
          = Roles.all_values (default [] (papers self !! k)))
  ∧ (∀ k a, coauthor_count self' k a = coauthor_count self k a).
Proof.
  intros [(-> & Hget & Hall & Hnd)| ->].
  - split; [|split; [|split; [|done]]].
    + intros Ht k d. cbn. destruct (decide (c = k)) as [<-|Hk].
      * rewrite lookup_insert_eq. intros [= <-]. apply Hnd.
        destruct (papers self !! c) as [d0|] eqn:E; cbn; [by eapply Ht|].
        apply NoDup_nil_2.
      * rewrite lookup_insert_ne by done. apply Ht.
    + intros k role. unfold paper_list at 1. cbn.
      destruct (decide (c = k)) as [<-|Hk].
      * by rewrite lookup_insert_eq.
      * by rewrite lookup_insert_ne.
    + intros k. cbn. destruct (decide (c = k)) as [<-|Hk].
      * by rewrite lookup_insert_eq.
      * by rewrite lookup_insert_ne.
  - split; [done|]. split; [done|]. split; [done|].
    intros k a. unfold coauthor_count at 1. cbn.
    destruct (decide (c = k)) as [<-|Hk].
    + by rewrite lookup_insert_eq.
    + by rewrite lookup_insert_ne.
Qed.

(** What one call adds to the papers and the co-author counts of a name. *)
Lemma step_adds self c self' :
  step slugify self c = Some self' →
  (tables_nodup self → tables_nodup self')
  ∧ (∀ k role, paper_list self' k role
               = paper_list self k role ++ papers_of self [c] k role)
  ∧ (tables_nodup self →
     ∀ k, Roles.all_values (default [] (papers self' !! k))
          ≡ₚ Roles.all_values (default [] (papers self !! k))
             ++ all_papers_of self [c] k)
  ∧ (∀ k a, coauthor_count self' k a
            = (coauthor_count self k a + coauthored self [c] k a)%Z).
Proof.
  assert (∀ s, (tables_nodup self → tables_nodup s)
    ∧ (∀ k role, paper_list s k role = paper_list self k role)
    ∧ (∀ k, Roles.all_values (default [] (papers s !! k))
            = Roles.all_values (default [] (papers self !! k)))
    ∧ (∀ k a, coauthor_count s k a = coauthor_count self k a) →
    (tables_nodup self → tables_nodup s)
    ∧ (∀ k role, paper_list s k role = paper_list self k role ++ [])
    ∧ (tables_nodup self →
       ∀ k, Roles.all_values (default [] (papers s !! k))
            ≡ₚ Roles.all_values (default [] (papers self !! k)) ++ [])
    ∧ (∀ k a, coauthor_count s k a = (coauthor_count self k a + 0)%Z)) as Hkeep.
  { intros s (H1 & H2 & H3 & H4). split; [done|]. split; [|split].
    - intros k role. by rewrite app_nil_r.
    - intros _ k. by rewrite app_nil_r, H3.
    - intros k a. rewrite H4. lia. }
  destruct c as [n p r|n|n role|n|vidx n]; cbn [step].
  - destruct (register slugify self n p r) as [[x s1]|] eqn:E; [|done].
    intros [= <-]. apply register_spec in E as (_ & _ & Hp & Hco & Hcnt & _).
    cbn [papers_of all_papers_of coauthored].
    set (c := get_canonical_variant self n) in *.
    split; [|split; [|split]].
    + intros Ht k d. rewrite Hp. destruct (decide (c = k)) as [<-|Hk].
      * rewrite lookup_insert_eq. intros [= <-]. rewrite append_keys.
        apply touch_keys.
        destruct (papers self !! c) as [d0|] eqn:E; cbn; [by eapply Ht|].
        apply NoDup_nil_2.
      * rewrite lookup_insert_ne by done. apply Ht.
    + intros k role. unfold paper_list at 1. rewrite Hp, app_nil_r.
      destruct (decide (c = k)) as [<-|Hk].
      * rewrite lookup_insert_eq. cbn [default from_option id].
        rewrite getitem_append. unfold paper_list.
        destruct (decide (role = r)) as [->|Hr].
        -- by rewrite decide_True.
        -- rewrite decide_False; [done|]. by intros [_ ?].
      * rewrite lookup_insert_ne by done.
        rewrite decide_False, app_nil_r; [done|]. by intros [? _].
    + intros Ht k. rewrite Hp, app_nil_r. destruct (decide (c = k)) as [<-|Hk].
      * rewrite lookup_insert_eq. cbn [default from_option id].
        rewrite all_values_append, Permutation_cons_append; [done|].
        destruct (papers self !! c) as [d0|] eqn:E; cbn; [by eapply Ht|].
        apply NoDup_nil_2.
      * by rewrite lookup_insert_ne, app_nil_r.
    + intros k a. rewrite Z.add_0_r. destruct (decide (c = k)) as [<-|Hk].
      * rewrite Hcnt. destruct (decide (a = c)) as [->|Ha].
        -- rewrite decide_False; [done|]. by intros [_ ?].
        -- by rewrite decide_True.
      * rewrite decide_False by (by intros [? _]).
        unfold coauthor_count. rewrite Hco by done. lia.
  - intros [= <-]. apply Hkeep. by repeat split.
  - rewrite get_papers_state. intros [= <-]. apply Hkeep.
    set (c := get_canonical_variant self n).
    set (d := default [] (papers self !! c)).
    apply (lookup_keeps self _ c (match role with
                                  | Some r => Roles.touch r d
                                  | None => d
                                  end)).
    left. split; [done|]. destruct role as [r|].
    + split; [intros r'; apply roles_lookup_touch|].
      split; [apply all_values_touch|]. intros ?. by apply touch_keys.
    + by repeat split.
  - rewrite get_coauthors_state. intros [= <-]. apply Hkeep.
    apply (lookup_keeps self _ (get_canonical_variant self n) []). by right.
  - rewrite get_venues_state, get_papers_state. intros [= <-]. apply Hkeep.
    apply (lookup_keeps self _ (get_canonical_variant self n)
             (default [] (papers self !! get_canonical_variant self n))).
    left. by repeat split.
Qed.

Lemma run_adds self cs self' :
  run slugify self cs = Some self' →
  (tables_nodup self → tables_nodup self')
  ∧ (∀ k role, paper_list self' k role
               = paper_list self k role ++ papers_of self cs k role)
  ∧ (tables_nodup self →
     ∀ k, Roles.all_values (default [] (papers self' !! k))
          ≡ₚ Roles.all_values (default [] (papers self !! k))
             ++ all_papers_of self cs k)
  ∧ (∀ k a, coauthor_count self' k a
            = (coauthor_count self k a + coauthored self cs k a)%Z).
Proof.
  revert self. induction cs as [|c cs IH]; intros self; cbn [run].
  - intros [= <-]. split; [done|]. split; [|split].
    + intros k role. cbn. by rewrite app_nil_r.
    + intros _ k. cbn. by rewrite app_nil_r.
    + intros k a. cbn. lia.
  - destruct (step slugify self c) as [s1|] eqn:E; [|done].
    cbn [mbind option_bind]. intros Hrun.
    pose proof (step_variants slugify _ _ _ E) as Hv.
    destruct (step_adds _ _ _ E) as (Ht1 & Hp1 & Ha1 & Hc1).
    destruct (IH _ Hrun) as (Ht2 & Hp2 & Ha2 & Hc2).
    split; [auto|]. split; [|split].
    + intros k role. rewrite Hp2, Hp1, (papers_of_variants s1 self) by done.
      by rewrite <-app_assoc, (papers_of_cons self c cs).
    + intros Ht k. rewrite Ha2, Ha1, (all_papers_of_variants s1 self) by auto.
      by rewrite <-app_assoc, (all_papers_of_cons self c cs).
    + intros k a. rewrite Hc2, Hc1, (coauthored_variants s1 self) by done.
      rewrite (coauthored_cons self c cs). lia.
Qed.

Lemma all_values_by_role (d : Roles.t) :
  NoDup d.*1 →
  Roles.all_values d
  = concat ((λ role, Roles.getitem role (Roles.touch role d)) <$> d.*1).
Proof.
  intros Hnd. unfold Roles.all_values.
  rewrite <-list_fmap_compose. f_equal.
  apply list_fmap_ext. intros i [r l] Hi. cbn.
  rewrite roles_lookup_touch. unfold Roles.getitem.
  assert (Roles.lookup r d = Some l) as ->; [|done].
  revert i Hi. induction d as [|[r' l'] d IH]; intros i Hi; [done|].
  apply NoDup_cons in Hnd as [Hr Hnd]. cbn.
  destruct i as [|i]; cbn in Hi.
  - revert Hi. intros [= -> ->]. by rewrite decide_True.
  - rewrite decide_False; [by eapply IH|]. intros ->. apply Hr.
    apply list_elem_of_fmap. exists (r, l). split; [done|].
    by eapply list_elem_of_lookup_2.
Qed.

Lemma init_empty name_dict :
  papers (__init__ name_dict) = ∅ ∧ coauthors (__init__ name_dict) = ∅.
Proof.
  destruct name_dict as [d|]; unfold __init__; [|done].
  by destruct (load_variant_list_frame (mkIndex ∅ ∅ {[ "" ]} ∅ ∅ ∅) d)
    as (_ & _ & _ & -> & ->).
Qed.

(** X14: after any sequence of calls on a new index [get_papers] with a
    role returns the papers registered for the canonical form of the name
    under that role, in the order of the registrations, a paper registered
    twice being there twice. *)
Theorem papers_registered name_dict cs q role :
  ∃ self, run slugify (__init__ name_dict) cs = Some self
    ∧ (get_papers self q (Some role)).1
      = papers_of (__init__ name_dict) cs
          (get_canonical_variant (__init__ name_dict) q) role.
Proof.
  destruct (run_total slugify (__init__ name_dict) cs) as [self Hrun].
  exists self. split; [done|].
  rewrite <-(canonical_variants self) by by eapply run_variants.
  destruct (run_adds _ _ _ Hrun) as (_ & Hp & _ & _).
  unfold get_papers. cbn [fst]. rewrite roles_lookup_touch.
  change (paper_list self (get_canonical_variant self q) role = 
          papers_of (__init__ name_dict) cs (get_canonical_variant self q) role).
  rewrite Hp. unfold paper_list.
  destruct (init_empty name_dict) as [-> _]. by rewrite lookup_empty.
Qed.

(** X15: without a role [get_papers] returns the papers registered for the
    canonical form of the name under any role, each as often as it was
    registered; they stand role by role, the roles in the order in which
    they came up for the name. *)
Theorem all_papers_registered name_dict cs q :
  ∃ self roles, run slugify (__init__ name_dict) cs = Some self
    ∧ (get_papers self q None).1
      ≡ₚ all_papers_of (__init__ name_dict) cs
           (get_canonical_variant (__init__ name_dict) q)
    ∧ NoDup roles
    ∧ (get_papers self q None).1
      = concat ((λ role, (get_papers self q (Some role)).1) <$> roles).
Proof.
  destruct (run_total slugify (__init__ name_dict) cs) as [self Hrun].
  set (c := get_canonical_variant self q).
  exists self, (default [] (papers self !! c)).*1. split; [done|].
  rewrite <-(canonical_variants self) by by eapply run_variants.
  destruct (run_adds _ _ _ Hrun) as (Ht & _ & Ha & _).
  destruct (init_empty name_dict) as [Hempty _].
  assert (tables_nodup (__init__ name_dict)) as Ht0.
  { intros k d. by rewrite Hempty, lookup_empty. }
  specialize (Ht Ht0). specialize (Ha Ht0 c).
  rewrite Hempty, lookup_empty in Ha.
  assert (NoDup (default [] (papers self !! c)).*1) as Hnd.
  { destruct (papers self !! c) as [d|] eqn:E; cbn; [by eapply Ht|].
    apply NoDup_nil_2. }
  split; [exact Ha|]. split; [done|].
  unfold get_papers. fold c. cbn [fst]. by apply all_values_by_role.
Qed.

(** X16: after any sequence of calls on a new index the count [get_coauthors]
    gives for a co-author is the number of times the papers of the
    registrations of the name list a name with that canonical form, under
    the role of the registration; for the name itself there is none. *)
Theorem coauthors_registered name_dict cs q a :
  ∃ self, run slugify (__init__ name_dict) cs = Some self
    ∧ default 0%Z ((get_coauthors self q).1 !! a)
      = coauthored (__init__ name_dict) cs
          (get_canonical_variant (__init__ name_dict) q) a
    ∧ default 0%Z ((get_coauthors self q).1 !! get_canonical_variant self q) = 0%Z.
Proof.
  destruct (run_total slugify (__init__ name_dict) cs) as [self Hrun].
  exists self. split; [done|].
  rewrite <-(canonical_variants self) by by eapply run_variants.
  destruct (run_adds _ _ _ Hrun) as (_ & _ & _ & Hc).
  set (c := get_canonical_variant self q).
  assert (∀ b, default 0%Z ((get_coauthors self q).1 !! b)
               = coauthored (__init__ name_dict) cs c b) as Hcount.
  { intros b.
    change (coauthor_count self c b = coauthored (__init__ name_dict) cs c b).
    rewrite Hc. unfold coauthor_count.
    destruct (init_empty name_dict) as [_ ->].
    rewrite lookup_empty. cbn [default from_option id].
    rewrite lookup_empty. cbn [default from_option id]. lia. }
  split; [apply Hcount|]. rewrite Hcount. apply coauthored_self.
Qed.

End Accumulation.

(** ** Further properties on sample names *)

Section MoreSamples.

(** X9 on a sample: the first name registered on a new index. *)
Lemma register_new_slug_witness :
  ∃ x self', register Sample.slugify (__init__ None) Sample.jane Sample.paper1
               "author" = Some (x, self')
    ∧ slugs self' !! Sample.jane = Some "jane-smith".
Proof.
  destruct (register_new_slug Sample.slugify (__init__ None) Sample.jane
              Sample.paper1 "author") as (x & self' & Hreg & _ & Hnew & _).
  exists x, self'. split; [done|].
  destruct Hnew as (slug & Hs & _ & _ & _ & Hcase).
  { vm_compute. set_solver. }
  rewrite Hs. apply lookup_insert_Some. left. split; [done|].
  destruct Hcase as [->|[Hused _]]; [done|].
  exfalso. revert Hused. vm_compute. set_solver.
Defined.

End MoreSamples.
